(** * move_homedir: the registry walker and its substring replacement

    A shallow embedding of [move_homedir.cpp]: the [RegKey] handle class,
    the [Replace] string primitive and the recursive walker [iter], over an
    interface for the registry calls the program makes.

    Conventions.
    - [DWORD] values are integers in [0, 2^32); arithmetic on them that can
      leave the range is reduced with [wrap32].
    - [wchar_t] is a UTF-16 code unit; a [std::wstring] is the list of its
      code units, without terminator.  A [TCHAR*] buffer is the list of code
      units it holds; [c_str] reads it up to the first NUL.
    - [size_t] positions in strings are natural numbers; [npos] is [None].
    - The [int] match counter is an integer; [count++] at [INT_MAX] is
      undefined in C++ and has no result in the model.
    - Console output is not modelled. *)

From Stdlib Require Import String Ascii ZArith List Bool Lia Arith.
Import ListNotations.

(** ** Wide strings *)

Definition wchar_t := Z.
Definition wstring := list wchar_t.

(** The wide literal [L"..."] of a narrow literal. *)
Definition L (s : string) : wstring :=
  map (fun a => Z.of_N (N_of_ascii a)) (list_ascii_of_string s).

(** [c_str buf]: the C string held by a buffer, up to the first NUL. *)
Fixpoint c_str (buf : list wchar_t) : wstring :=
  match buf with
  | [] => []
  | c :: buf' => if Z.eqb c 0 then [] else c :: c_str buf'
  end.

(** [starts_with needle value]: [value] begins with [needle]. *)
Fixpoint starts_with (needle value : wstring) : bool :=
  match needle, value with
  | [], _ => true
  | _ :: _, [] => false
  | a :: needle', b :: value' => Z.eqb a b && starts_with needle' value'
  end.

(** [find_from rest needle pos]: the scan of [std::wstring::find] over
    [rest], the part of the string that begins at index [pos]. *)
Fixpoint find_from (rest needle : wstring) (pos : nat) : option nat :=
  if starts_with needle rest then Some pos
  else match rest with
       | [] => None
       | _ :: rest' => find_from rest' needle (S pos)
       end.

(** [value.find(needle, pos)]: the lowest index [p >= pos] at which
    [needle] occurs in [value]; [None] is [npos]. *)
Definition find (value needle : wstring) (pos : nat) : option nat :=
  if Nat.leb pos (length value) then find_from (skipn pos value) needle pos
  else None.

(** [value.replace(pos, len, replacement)]. *)
Definition replace (value : wstring) (pos len : nat) (replacement : wstring)
  : wstring :=
  firstn pos value ++ replacement ++ skipn (pos + len) value.

(** [wcsstr(data, needle) != NULL]: both arguments are read as C strings. *)
Definition wcsstr (data needle : list wchar_t) : bool :=
  match find_from (c_str data) (c_str needle) 0 with
  | Some _ => true
  | None => false
  end.

(** ** Replace

    The [while (true)] loop of [Replace].  [fuel] bounds the number of
    times the loop condition is evaluated; [None] means the loop is still
    running when the fuel is spent. *)
Fixpoint Replace_loop (fuel : nat) (needle replacement value : wstring)
  (pos : nat) : option wstring :=
  match fuel with
  | O => None
  | S fuel' =>
      match find value needle pos with
      | None => Some value
      | Some p =>
          Replace_loop fuel' needle replacement
            (replace value p (length needle) replacement)
            (p + length replacement)
      end
  end.

(** [Replace(haystack, needle, replacement)].  One evaluation of the loop
    condition per character of the haystack, and one more, is enough for
    every non-empty needle ([Replace_loop_fuel] below). *)
Definition Replace (haystack needle replacement : wstring) : option wstring :=
  Replace_loop (S (length haystack)) needle replacement haystack 0.

(** The loop of [Replace] once more, counting its rounds: a round is one
    pass through the body, from a successful [find] to the update of
    [pos].  The result is the string returned and the number of rounds
    made. *)
Fixpoint Replace_loop_counting (fuel : nat)
  (needle replacement value : wstring) (pos rounds : nat)
  : option (wstring * nat) :=
  match fuel with
  | O => None
  | S fuel' =>
      match find value needle pos with
      | None => Some (value, rounds)
      | Some p =>
          Replace_loop_counting fuel' needle replacement
            (replace value p (length needle) replacement)
            (p + length replacement) (S rounds)
      end
  end.

Definition Replace_rounds (haystack needle replacement : wstring)
  : option (wstring * nat) :=
  Replace_loop_counting (S (length haystack)) needle replacement haystack 0 0.

(** An occurrence of [needle] in [value] at index [q]. *)
Definition occurs_at (value needle : wstring) (q : nat) : Prop :=
  exists u v, value = u ++ needle ++ v /\ length u = q.

Definition contains (value needle : wstring) : Prop :=
  exists q, occurs_at value needle q.

(** The number of indices at which [needle] occurs in [value]. *)
Fixpoint occurrences (value needle : wstring) : nat :=
  (if starts_with needle value then 1 else 0) +
  match value with
  | [] => 0
  | _ :: value' => occurrences value' needle
  end.


(** [compatible a b]: one of [a], [b] is a prefix of the other, so that
    some text makes [a] and [b] begin at the same place. *)
Definition compatible (a b : wstring) : bool :=
  starts_with a b || starts_with b a.

(** [boundary_safe needle replacement]: the needle cannot lie across an
    inserted replacement.  No proper non-empty suffix of the needle is
    compatible with the replacement (an occurrence that begins before the
    replacement and reaches into it), and the needle is compatible with no
    non-empty suffix of the replacement (an occurrence that begins inside
    the replacement). *)
Definition boundary_safe (needle replacement : wstring) : bool :=
  forallb (fun k => negb (compatible (skipn k needle) replacement))
    (seq 1 (length needle - 1))
  && forallb (fun j => negb (compatible needle (skipn j replacement)))
       (seq 0 (length replacement)).

(** Left-to-right substitution as the specification words it: walk the
    haystack once; where the needle begins, emit the replacement and skip
    the needle's characters; elsewhere copy the character.  [skip] counts
    the characters of a matched needle still to pass.  The replacement is
    only emitted, never read back. *)
Fixpoint substitute (needle replacement : wstring) (skip : nat)
  (haystack : wstring) : wstring :=
  match haystack with
  | [] => []
  | c :: haystack' =>
      match skip with
      | S k => substitute needle replacement k haystack'
      | O =>
          if starts_with needle haystack
          then replacement
               ++ substitute needle replacement (length needle - 1) haystack'
          else c :: substitute needle replacement 0 haystack'
      end
  end.

Definition replace_spec (haystack needle replacement : wstring) : wstring :=
  substitute needle replacement 0 haystack.

(** ** Constants of the program and of the registry interface *)

Definition DWORD := Z.
Definition wrap32 (z : Z) : DWORD := (z mod 2 ^ 32)%Z.

Definition INT_MAX : Z := 2147483647%Z.

(** [count++] on an [int]. *)
Definition increment (count : Z) : option Z :=
  if (count <? INT_MAX)%Z then Some (count + 1)%Z else None.

Definition MAX_KEY_LENGTH : DWORD := 255%Z.
Definition MAX_VALUE_NAME : DWORD := 16383%Z.
Definition NAME_BUFFER : nat := 1024.

Definition FROM_NAME : wstring := L "Users\from".
Definition TO_NAME : wstring := L "Users\to".

(** Values of [winerror.h] and [winnt.h]. *)
Definition ERROR_SUCCESS : DWORD := 0%Z.
Definition ERROR_FILE_NOT_FOUND : DWORD := 2%Z.
Definition ERROR_ACCESS_DENIED : DWORD := 5%Z.
Definition ERROR_INVALID_HANDLE : DWORD := 6%Z.
Definition ERROR_MORE_DATA : DWORD := 234%Z.
Definition ERROR_NO_MORE_ITEMS : DWORD := 259%Z.
Definition ERROR_UNSUPPORTED_TYPE : DWORD := 1630%Z.
Definition REG_SZ : DWORD := 1%Z.
Definition REG_DWORD : DWORD := 4%Z.
Definition RRF_RT_REG_SZ : DWORD := 2%Z.
Definition KEY_ALL_ACCESS : DWORD := 983103%Z.
Definition KEY_WOW64_64KEY : DWORD := 256%Z.
Definition sizeof_WCHAR : DWORD := 2%Z.

(** The members of [RegKey] that [RegQueryInfoKey] fills. *)
Record KeyInfo := mkKeyInfo {
  subkeyCount : DWORD;
  longestSubkeySize : DWORD;
  longestSubClassSize : DWORD;
  valueCount : DWORD;
  longestValueName : DWORD;
  longestValueData : DWORD;
  securityDescriptorSize : DWORD;
  lastWriteTime : Z
}.

(** ** The registry calls

    The program reaches the registry through six calls.  Each returns its
    status code first; the out-parameters follow.  Only [RegSetValueEx]
    changes the store.  Names come back as the C strings the call wrote. *)
Class Registry := {
  store : Type;
  HKEY : Type;
  RegOpenKeyEx :
    store -> HKEY -> wstring -> DWORD -> DWORD -> DWORD * HKEY;
  RegQueryInfoKey : store -> HKEY -> DWORD * KeyInfo;
  RegEnumKeyEx : store -> HKEY -> DWORD -> DWORD -> DWORD * wstring;
  RegEnumValue : store -> HKEY -> DWORD -> DWORD -> DWORD * wstring;
  RegGetValue :
    store -> HKEY -> wstring -> DWORD -> DWORD -> DWORD * list wchar_t;
  RegSetValueEx :
    store -> HKEY -> wstring -> DWORD -> wstring -> DWORD -> DWORD * store
}.

Section Walker.

Context {R : Registry}.

(** ** RegKey *)

(** [info] is [None] as long as [getInfo] has not run: the members it
    fills have never been written. *)
Record RegKey := mkRegKey {
  depth : Z;
  errorCode : DWORD;
  isValidb : bool;
  key : HKEY;
  name : wstring;
  info : option KeyInfo
}.

(** The access rights [RegKey] opens a key with. *)
Definition open_flags : DWORD := Z.lor KEY_ALL_ACCESS KEY_WOW64_64KEY.

(** [getInfo]: the status of [RegQueryInfoKey] is dropped. *)
Definition getInfo (st : store) (k : HKEY) : KeyInfo :=
  snd (RegQueryInfoKey st k).

(** The constructor [RegKey(parent, name, depth)].  [_tcscpy_s] ends the
    program when the name and its terminator do not fit [NAME_BUFFER]
    characters: no handle is built then. *)
Definition RegKey_new (st : store) (parent : HKEY) (name : wstring)
  (depth : Z) : option RegKey :=
  if Nat.ltb (length name) NAME_BUFFER then
    let (errorCode, key) := RegOpenKeyEx st parent name 0%Z open_flags in
    let isValidb := Z.eqb errorCode ERROR_SUCCESS in
    Some (mkRegKey depth errorCode isValidb key name
            (if isValidb then Some (getInfo st key) else None))
  else None.

Definition getName (k : RegKey) : wstring := name k.
Definition getKey (k : RegKey) : HKEY := key k.
Definition getSubkeyCount (k : RegKey) : option DWORD :=
  option_map subkeyCount (info k).
Definition getValueCount (k : RegKey) : option DWORD :=
  option_map valueCount (info k).
Definition getLongestValueData (k : RegKey) : option DWORD :=
  option_map longestValueData (info k).
Definition isValid (k : RegKey) : bool := isValidb k.
Definition getDepth (k : RegKey) : Z := depth k.
Definition getErrorCode (k : RegKey) : DWORD := errorCode k.

(** ** The walker *)

(** One call of [RegSetValueEx] made by the walker, with its status. *)
Record SetValueCall := mkSetValueCall {
  sv_key : HKEY;
  sv_name : wstring;
  sv_data : wstring;
  sv_status : DWORD
}.

(** The registry together with the calls of [RegSetValueEx] made so far,
    the latest first. *)
Record World := mkWorld {
  registry : store;
  writes : list SetValueCall
}.

(** What a walk yields: the [bool] it returns, the counter and the world
    it leaves.  [None]: no return (out of fuel, the program ended in the
    constructor, a member that was never written was read, or the counter
    overflowed). *)
Definition walk := option (bool * Z * World).

(** [for (DWORD i = first; i < first + n; i++) body]: a body that yields
    [false] makes the function return [false]; after the last round the
    code that follows the loop runs. *)
Fixpoint for_loop (n : nat) (i : DWORD)
  (body : DWORD -> Z -> World -> walk) (count : Z) (w : World) : walk :=
  match n with
  | O => Some (true, count, w)
  | S n' =>
      match body i count w with
      | Some (true, count', w') => for_loop n' (i + 1)%Z body count' w'
      | r => r
      end
  end.

(** The body of the loop over the subkeys. *)
Definition iter_subkey (rec : RegKey -> Z -> World -> walk)
  (keyHolder : RegKey) (i : DWORD) (count : Z) (w : World) : walk :=
  let (errValue, keyName) :=
    RegEnumKeyEx (registry w) (getKey keyHolder) i MAX_KEY_LENGTH in
  if negb (Z.eqb errValue ERROR_SUCCESS) then Some (false, count, w)
  else
    match RegKey_new (registry w) (getKey keyHolder) keyName
            (getDepth keyHolder + 1) with
    | None => None
    | Some subKey =>
        if negb (isValid subKey)
           && negb (Z.eqb (getErrorCode subKey) ERROR_FILE_NOT_FOUND)
           && negb (Z.eqb (getErrorCode subKey) ERROR_ACCESS_DENIED)
        then Some (false, count, w)
        else if isValid subKey then rec subKey count w
        else Some (true, count, w)
    end.

(** The body of the loop over the values. *)
Definition iter_value (keyHolder : RegKey) (i : DWORD) (count : Z)
  (w : World) : walk :=
  let (errValue, valueName) :=
    RegEnumValue (registry w) (getKey keyHolder) i MAX_VALUE_NAME in
  if negb (Z.eqb errValue ERROR_SUCCESS) then Some (false, count, w)
  else
    match getLongestValueData keyHolder with
    | None => None
    | Some longest =>
        let size := wrap32 (longest * 2 + 2) in
        let (errValue, data) :=
          RegGetValue (registry w) (getKey keyHolder) valueName
            RRF_RT_REG_SZ size in
        if negb (Z.eqb errValue ERROR_SUCCESS)
           && negb (Z.eqb errValue ERROR_UNSUPPORTED_TYPE)
        then Some (false, count, w)
        else if Z.eqb errValue ERROR_SUCCESS then
          if wcsstr data FROM_NAME then
            match increment count,
                  Replace (c_str data) FROM_NAME TO_NAME with
            | Some count, Some replaced =>
                let cbData :=
                  wrap32 ((wrap32 (Z.of_nat (length replaced)) + 1)
                          * sizeof_WCHAR) in
                let (setRes, st') :=
                  RegSetValueEx (registry w) (getKey keyHolder) valueName
                    REG_SZ replaced cbData in
                let w' :=
                  mkWorld st'
                    (mkSetValueCall (getKey keyHolder) valueName replaced
                       setRes :: writes w) in
                if negb (Z.eqb setRes ERROR_SUCCESS)
                then Some (false, count, w')
                else Some (true, count, w')
            | _, _ => None
            end
          else Some (true, count, w)
        else Some (true, count, w)
    end.

(** [iter(keyHolder, count)]: the subkeys first, then the values.
    [fuel] bounds the depth of the recursion. *)
Fixpoint iter (fuel : nat) (keyHolder : RegKey) (count : Z) (w : World)
  : walk :=
  match fuel with
  | O => None
  | S fuel' =>
      match getSubkeyCount keyHolder, getValueCount keyHolder with
      | Some subkeys, Some values =>
          match for_loop (Z.to_nat subkeys) 0%Z
                  (iter_subkey (iter fuel') keyHolder) count w with
          | Some (true, count', w') =>
              for_loop (Z.to_nat values) 0%Z (iter_value keyHolder) count' w'
          | r => r
          end
      | _, _ => None
      end
  end.

(** The number of calls of [RegSetValueEx] in a trace, and how many of
    them succeeded. *)
Definition attempted (l : list SetValueCall) : Z := Z.of_nat (length l).

Definition written (l : list SetValueCall) : Z :=
  Z.of_nat
    (length (filter (fun c => Z.eqb (sv_status c) ERROR_SUCCESS) l)).

(** The calls among the latest that have not been written: 1 when the
    latest call failed, 0 otherwise. *)
Definition unwritten (l : list SetValueCall) : Z :=
  match l with
  | [] => 0%Z
  | c :: _ => if Z.eqb (sv_status c) ERROR_SUCCESS then 0%Z else 1%Z
  end.

(** How a walk accounts for its writes: [calls] are the calls of
    [RegSetValueEx] it made, the counter grew by one for each of them, all
    but possibly the latest succeeded, and all of them did when the walk
    returns [true]. *)
Definition accounted (count : Z) (w : World) (res : bool * Z * World)
  : Prop :=
  let '(r, count', w') := res in
  exists calls,
    writes w' = calls ++ writes w /\
    (count' - count = attempted calls)%Z /\
    (attempted calls = written calls + unwritten calls)%Z /\
    (r = true -> unwritten calls = 0%Z).

(** [meets_fatal_open fuel keyHolder count w count' w']: the walk of
    [keyHolder] from [count] and [w] comes, at [keyHolder] or at a key
    below it, to a subkey that enumerates and then fails to open with a
    code other than not-found and access-denied, the counter being
    [count'] and the world [w'] at that moment. *)
Inductive meets_fatal_open :
  nat -> RegKey -> Z -> World -> Z -> World -> Prop :=
  | fatal_child fuel keyHolder inf count w k count' w' keyName e hk :
      info keyHolder = Some inf ->
      k < Z.to_nat (subkeyCount inf) ->
      for_loop k 0%Z (iter_subkey (iter fuel) keyHolder) count w
      = Some (true, count', w') ->
      RegEnumKeyEx (registry w') (getKey keyHolder) (Z.of_nat k)
        MAX_KEY_LENGTH = (ERROR_SUCCESS, keyName) ->
      length keyName < NAME_BUFFER ->
      RegOpenKeyEx (registry w') (getKey keyHolder) keyName 0%Z open_flags
      = (e, hk) ->
      e <> ERROR_SUCCESS -> e <> ERROR_FILE_NOT_FOUND ->
      e <> ERROR_ACCESS_DENIED ->
      meets_fatal_open (S fuel) keyHolder count w count' w'
  | fatal_below fuel keyHolder inf count w k count1 w1 keyName subKey
      count' w' :
      info keyHolder = Some inf ->
      k < Z.to_nat (subkeyCount inf) ->
      for_loop k 0%Z (iter_subkey (iter fuel) keyHolder) count w
      = Some (true, count1, w1) ->
      RegEnumKeyEx (registry w1) (getKey keyHolder) (Z.of_nat k)
        MAX_KEY_LENGTH = (ERROR_SUCCESS, keyName) ->
      RegKey_new (registry w1) (getKey keyHolder) keyName
        (getDepth keyHolder + 1) = Some subKey ->
      isValid subKey = true ->
      meets_fatal_open fuel subKey count1 w1 count' w' ->
      meets_fatal_open (S fuel) keyHolder count w count' w'.

End Walker.

(** ** The entry point and the lifetime of the handles *)

Section Program.

Context {R : Registry}.

(** The calls a walk makes carry strings free of the target, and a walk
    that makes no call leaves the registry as it was. *)
Definition tidy (count : Z) (w : World) (res : bool * Z * World) : Prop :=
  let '(_, _, w') := res in
  exists calls,
    writes w' = calls ++ writes w /\
    Forall (fun c => occurrences (sv_data c) FROM_NAME = 0) calls /\
    (calls = [] -> registry w' = registry w).

(** The hives of [main], one after the other: the root is opened under
    the empty name at depth 0; a root that is not valid makes [main]
    return -1; otherwise the hive is walked, what [iter] returns is
    dropped, and the next hive follows with the same counter.  After the
    last hive [main] returns 0 (once its prompt is answered).  The result
    is the exit status, the counter and the world. *)
Fixpoint walk_hives (fuel : nat) (roots : list HKEY) (count : Z) (w : World)
  : option (Z * Z * World) :=
  match roots with
  | [] => Some (0%Z, count, w)
  | root :: roots' =>
      match RegKey_new (registry w) root (L "") 0%Z with
      | None => None
      | Some hive =>
          if negb (isValid hive) then Some ((-1)%Z, count, w)
          else
            match iter fuel hive count w with
            | None => None
            | Some (_, count', w') => walk_hives fuel roots' count' w'
            end
      end
  end.

(** [main], over the five predefined handles, with the counter at 0. *)
Definition main (fuel : nat) (st : store)
  (HKEY_CLASSES_ROOT HKEY_CURRENT_USER HKEY_LOCAL_MACHINE HKEY_USERS
     HKEY_CURRENT_CONFIG : HKEY) : option (Z * Z * World) :=
  walk_hives fuel
    [HKEY_CLASSES_ROOT; HKEY_CURRENT_USER; HKEY_LOCAL_MACHINE; HKEY_USERS;
     HKEY_CURRENT_CONFIG]
    0%Z (mkWorld st []).

(** What happens to handles: [RegOpenKeyEx] succeeded in a constructor,
    or a destructor called [RegCloseKey]. *)
Inductive HandleEvent :=
  | Opened (h : HKEY)
  | Closed (h : HKEY).

(** The events of the constructor and of the destructor [~RegKey]: only a
    valid key holds a handle, and only a valid key is closed. *)
Definition constructed (k : RegKey) : list HandleEvent :=
  if isValid k then [Opened (getKey k)] else [].

Definition destroyed (k : RegKey) : list HandleEvent :=
  if isValid k then [Closed (getKey k)] else [].

(** A walk together with its handle events, the earliest first. *)
Definition hwalk := option (bool * Z * World * list HandleEvent).

Fixpoint for_loop_h (n : nat) (i : DWORD)
  (body : DWORD -> Z -> World -> hwalk) (count : Z) (w : World) : hwalk :=
  match n with
  | O => Some (true, count, w, [])
  | S n' =>
      match body i count w with
      | Some (true, count', w', ev) =>
          match for_loop_h n' (i + 1)%Z body count' w' with
          | Some (r, count'', w'', ev') => Some (r, count'', w'', ev ++ ev')
          | None => None
          end
      | r => r
      end
  end.

(** The body of the loop over the subkeys, with [new RegKey] and the
    [delete subKey] that precedes every way out of the round. *)
Definition iter_subkey_h (rec : RegKey -> Z -> World -> hwalk)
  (keyHolder : RegKey) (i : DWORD) (count : Z) (w : World) : hwalk :=
  let (errValue, keyName) :=
    RegEnumKeyEx (registry w) (getKey keyHolder) i MAX_KEY_LENGTH in
  if negb (Z.eqb errValue ERROR_SUCCESS) then Some (false, count, w, [])
  else
    match RegKey_new (registry w) (getKey keyHolder) keyName
            (getDepth keyHolder + 1) with
    | None => None
    | Some subKey =>
        if negb (isValid subKey)
           && negb (Z.eqb (getErrorCode subKey) ERROR_FILE_NOT_FOUND)
           && negb (Z.eqb (getErrorCode subKey) ERROR_ACCESS_DENIED)
        then Some (false, count, w, constructed subKey ++ destroyed subKey)
        else if isValid subKey then
          match rec subKey count w with
          | Some (r, count', w', ev) =>
              Some (r, count', w',
                    constructed subKey ++ ev ++ destroyed subKey)
          | None => None
          end
        else Some (true, count, w, constructed subKey ++ destroyed subKey)
    end.

(** The loop over the values opens and closes nothing. *)
Definition iter_value_h (keyHolder : RegKey) (i : DWORD) (count : Z)
  (w : World) : hwalk :=
  match iter_value keyHolder i count w with
  | Some res => Some (res, [])
  | None => None
  end.

Fixpoint iter_h (fuel : nat) (keyHolder : RegKey) (count : Z) (w : World)
  : hwalk :=
  match fuel with
  | O => None
  | S fuel' =>
      match getSubkeyCount keyHolder, getValueCount keyHolder with
      | Some subkeys, Some values =>
          match for_loop_h (Z.to_nat subkeys) 0%Z
                  (iter_subkey_h (iter_h fuel') keyHolder) count w with
          | Some (true, count', w', ev) =>
              match for_loop_h (Z.to_nat values) 0%Z
                      (iter_value_h keyHolder) count' w' with
              | Some (r, count'', w'', ev') =>
                  Some (r, count'', w'', ev ++ ev')
              | None => None
              end
          | r => r
          end
      | _, _ => None
      end
  end.

(** The hives of [main] with their handle events: the roots are objects
    of [main], destroyed when [main] returns, the latest first. *)
Fixpoint walk_hives_h (fuel : nat) (roots : list HKEY) (count : Z)
  (w : World) : option (Z * Z * World * list HandleEvent) :=
  match roots with
  | [] => Some (0%Z, count, w, [])
  | root :: roots' =>
      match RegKey_new (registry w) root (L "") 0%Z with
      | None => None
      | Some hive =>
          if negb (isValid hive)
          then Some ((-1)%Z, count, w, constructed hive ++ destroyed hive)
          else
            match iter_h fuel hive count w with
            | None => None
            | Some (_, count', w', ev) =>
                match walk_hives_h fuel roots' count' w' with
                | Some (status, count'', w'', ev') =>
                    Some (status, count'', w'',
                          constructed hive ++ (ev ++ ev') ++ destroyed hive)
                | None => None
                end
            end
      end
  end.

(** Events in which every handle opened is closed later, the latest
    opened first. *)
Inductive balanced : list HandleEvent -> Prop :=
  | balanced_nil : balanced []
  | balanced_open h a b :
      balanced a -> balanced b -> balanced (Opened h :: a ++ Closed h :: b).

(** The largest number of handles open at once in the course of the
    events, [open] of them being open at the start. *)
Fixpoint peak (open : nat) (ev : list HandleEvent) : nat :=
  match ev with
  | [] => open
  | Opened _ :: ev' => Nat.max open (peak (S open) ev')
  | Closed _ :: ev' => Nat.max open (peak (Nat.pred open) ev')
  end.

End Program.

(** ** A registry held as a finite tree

    A hive is a tree of keys.  A handle is the path of a key from the root
    of the hive.  Every key carries the status that opening it yields and
    the status that [RegSetValueEx] yields on it, so that a hive can hold
    keys that are denied and keys that refuse a write. *)
Module TreeStore.

Inductive Value :=
  | Value_SZ (data : wstring)
  | Value_other (type : DWORD) (payload : list Z).

#[local] Unset Elimination Schemes.
Inductive Key :=
  | mkKey (open_status set_status : DWORD)
      (values : list (wstring * Value)) (subkeys : list (wstring * Key)).
#[local] Set Elimination Schemes.

Definition open_status (k : Key) : DWORD :=
  match k with mkKey o _ _ _ => o end.
Definition set_status (k : Key) : DWORD :=
  match k with mkKey _ s _ _ => s end.
Definition values (k : Key) : list (wstring * Value) :=
  match k with mkKey _ _ v _ => v end.
Definition subkeys (k : Key) : list (wstring * Key) :=
  match k with mkKey _ _ _ c => c end.

Fixpoint wstring_eqb (a b : wstring) : bool :=
  match a, b with
  | [], [] => true
  | x :: a', y :: b' => Z.eqb x y && wstring_eqb a' b'
  | _, _ => false
  end.

Fixpoint assoc {V : Type} (n : wstring) (l : list (wstring * V)) : option V :=
  match l with
  | [] => None
  | (m, v) :: l' => if wstring_eqb n m then Some v else assoc n l'
  end.

(** Replaces the entry named [n], or adds one at the end. *)
Fixpoint assoc_set {V : Type} (n : wstring) (v : V) (l : list (wstring * V))
  : list (wstring * V) :=
  match l with
  | [] => [(n, v)]
  | (m, x) :: l' =>
      if wstring_eqb n m then (m, v) :: l' else (m, x) :: assoc_set n v l'
  end.

Definition assoc_update {V : Type} (n : wstring) (f : V -> V)
  (l : list (wstring * V)) : list (wstring * V) :=
  map (fun e => if wstring_eqb n (fst e) then (fst e, f (snd e)) else e) l.

Fixpoint lookup (path : list wstring) (k : Key) : option Key :=
  match path with
  | [] => Some k
  | n :: path' =>
      match assoc n (subkeys k) with
      | Some c => lookup path' c
      | None => None
      end
  end.

Fixpoint update (path : list wstring) (f : Key -> Key) (k : Key) : Key :=
  match path with
  | [] => f k
  | n :: path' =>
      mkKey (open_status k) (set_status k) (values k)
        (assoc_update n (update path' f) (subkeys k))
  end.

(** The size in bytes of a value's data; a string counts its terminator. *)
Definition data_size (v : Value) : Z :=
  match v with
  | Value_SZ data => (2 * (Z.of_nat (length data) + 1))%Z
  | Value_other _ payload => Z.of_nat (length payload)
  end.

Definition max_of (l : list Z) : Z := fold_right Z.max 0%Z l.

Definition query (k : Key) : KeyInfo :=
  mkKeyInfo
    (Z.of_nat (length (subkeys k)))
    (max_of (map (fun e => Z.of_nat (length (fst e))) (subkeys k)))
    0%Z
    (Z.of_nat (length (values k)))
    (max_of (map (fun e => Z.of_nat (length (fst e))) (values k)))
    (max_of (map (fun e => data_size (snd e)) (values k)))
    0%Z 0%Z.

Definition no_info : KeyInfo := mkKeyInfo 0%Z 0%Z 0%Z 0%Z 0%Z 0%Z 0%Z 0%Z.

Definition open (st : Key) (parent : list wstring) (name : wstring)
  (options sam : DWORD) : DWORD * list wstring :=
  let path := match name with [] => parent | _ => parent ++ [name] end in
  match lookup path st with
  | Some k => (open_status k, path)
  | None => (ERROR_FILE_NOT_FOUND, path)
  end.

Definition query_info (st : Key) (h : list wstring) : DWORD * KeyInfo :=
  match lookup h st with
  | Some k => (ERROR_SUCCESS, query k)
  | None => (ERROR_INVALID_HANDLE, no_info)
  end.

Definition enum_name {V : Type} (l : list (wstring * V)) (i cch : DWORD)
  : DWORD * wstring :=
  match nth_error l (Z.to_nat i) with
  | Some (n, _) =>
      if (Z.of_nat (length n) <? cch)%Z then (ERROR_SUCCESS, n)
      else (ERROR_MORE_DATA, [])
  | None => (ERROR_NO_MORE_ITEMS, [])
  end.

Definition enum_key (st : Key) (h : list wstring) (i cch : DWORD)
  : DWORD * wstring :=
  match lookup h st with
  | Some k => enum_name (subkeys k) i cch
  | None => (ERROR_INVALID_HANDLE, [])
  end.

Definition enum_value (st : Key) (h : list wstring) (i cch : DWORD)
  : DWORD * wstring :=
  match lookup h st with
  | Some k => enum_name (values k) i cch
  | None => (ERROR_INVALID_HANDLE, [])
  end.

Definition get_value (st : Key) (h : list wstring) (n : wstring)
  (flags size : DWORD) : DWORD * list wchar_t :=
  match lookup h st with
  | Some k =>
      match assoc n (values k) with
      | Some (Value_SZ data) =>
          if (data_size (Value_SZ data) <=? size)%Z
          then (ERROR_SUCCESS, data ++ [0%Z])
          else (ERROR_MORE_DATA, [])
      | Some (Value_other _ _) => (ERROR_UNSUPPORTED_TYPE, [])
      | None => (ERROR_FILE_NOT_FOUND, [])
      end
  | None => (ERROR_INVALID_HANDLE, [])
  end.

(** The string that [cbData] bytes of a buffer holding [data] and its
    terminator make. *)
Definition stored (data : wstring) (cbData : DWORD) : wstring :=
  c_str (firstn (Z.to_nat (cbData / 2)) (data ++ [0%Z])).

Definition set_value (st : Key) (h : list wstring) (n : wstring)
  (type : DWORD) (data : wstring) (cbData : DWORD) : DWORD * Key :=
  match lookup h st with
  | Some k =>
      if Z.eqb (set_status k) ERROR_SUCCESS then
        (ERROR_SUCCESS,
         update h
           (fun k =>
              mkKey (open_status k) (set_status k)
                (assoc_set n
                   (if Z.eqb type REG_SZ then Value_SZ (stored data cbData)
                    else Value_other type data)
                   (values k))
                (subkeys k))
           st)
      else (set_status k, st)
  | None => (ERROR_INVALID_HANDLE, st)
  end.

#[export] Instance tree_registry : Registry := {|
  store := Key;
  HKEY := list wstring;
  RegOpenKeyEx := open;
  RegQueryInfoKey := query_info;
  RegEnumKeyEx := enum_key;
  RegEnumValue := enum_value;
  RegGetValue := get_value;
  RegSetValueEx := set_value
|}.

(** The value named [n] of the key at [path]. *)
Definition value_at (st : Key) (path : list wstring) (n : wstring)
  : option Value :=
  match lookup path st with
  | Some k => assoc n (values k)
  | None => None
  end.

(** A key that opens and takes writes. *)
Definition plain_key (values : list (wstring * Value))
  (subkeys : list (wstring * Key)) : Key :=
  mkKey ERROR_SUCCESS ERROR_SUCCESS values subkeys.

(** The world in which no write has been made yet. *)
Definition fresh (st : Key) : World := mkWorld st [].

(** The walk of a hive as [main] starts it: the root is opened under the
    empty name at depth 0 and walked if it is valid. *)
Definition walk_hive (fuel : nat) (st : Key) (count : Z) : walk :=
  match RegKey_new st [] (L "") 0%Z with
  | Some root =>
      if isValid root then iter fuel root count (fresh st) else None
  | None => None
  end.

(** One root with one child [A] that holds the string value [p]. *)
Definition hive_A : Key :=
  plain_key []
    [(L "A", plain_key [(L "p", Value_SZ (L "C:\Users\from\data"))] [])].

(** The same child, on a key that refuses writes. *)
Definition hive_A_readonly : Key :=
  plain_key []
    [(L "A",
      mkKey ERROR_SUCCESS ERROR_ACCESS_DENIED
        [(L "p", Value_SZ (L "C:\Users\from\data"))] [])].

(** A root with a denied child, a child that fails to open with another
    code (ERROR_INVALID_HANDLE stands for it), and one binary value. *)
Definition hive_denied : Key :=
  plain_key [(L "n", Value_other REG_DWORD [1; 0; 0; 0]%Z)]
    [(L "D", mkKey ERROR_ACCESS_DENIED ERROR_SUCCESS [] []);
     (L "A", plain_key [(L "p", Value_SZ (L "C:\Users\from\data"))] [])].

Definition hive_broken : Key :=
  plain_key []
    [(L "B", mkKey ERROR_INVALID_HANDLE ERROR_SUCCESS [] []);
     (L "A", plain_key [(L "p", Value_SZ (L "C:\Users\from\data"))] [])].

(** The broken key one level further down. *)
Definition hive_deep : Key :=
  plain_key []
    [(L "A",
      plain_key []
        [(L "B", mkKey ERROR_INVALID_HANDLE ERROR_SUCCESS [] [])])].

(** One value, before and after another program made it longer: a handle
    opened on [hive_short] holds a longest-value size that is stale for
    [hive_long]. *)
Definition hive_short : Key :=
  plain_key [(L "p", Value_SZ (L "ab"))] [].

Definition hive_long : Key :=
  plain_key [(L "p", Value_SZ (L "C:\Users\from\data"))] [].

(** A hive with nothing in it, a hive whose root refuses to open, and a
    hive that enumerates a subkey which is not found when opened. *)
Definition hive_empty : Key := plain_key [] [].

Definition hive_locked : Key :=
  mkKey ERROR_ACCESS_DENIED ERROR_SUCCESS
    [(L "p", Value_SZ (L "C:\Users\from\data"))] [].

Definition hive_ghost : Key :=
  plain_key []
    [(L "G", mkKey ERROR_FILE_NOT_FOUND ERROR_SUCCESS [] []);
     (L "A", plain_key [(L "p", Value_SZ (L "C:\Users\from\data"))] [])].

End TreeStore.

Import TreeStore.

(** * Properties *)

(** ** Prefixes and occurrences *)

Lemma starts_with_app (n t : wstring) : starts_with n (n ++ t) = true.
Proof.
  induction n as [|a n IH]; simpl; [reflexivity|].
  now rewrite Z.eqb_refl, IH.
Qed.

Lemma starts_with_inv (n v : wstring) :
  starts_with n v = true -> exists t, v = n ++ t.
Proof.
  revert v; induction n as [|a n IH]; intros v H; simpl in *.
  - now exists v.
  - destruct v as [|b v]; [discriminate|].
    apply andb_true_iff in H as [Hab Hn].
    apply Z.eqb_eq in Hab; subst b.
    destruct (IH _ Hn) as [t ->]. now exists t.
Qed.

Lemma starts_with_length (n v : wstring) :
  starts_with n v = true -> length n <= length v.
Proof.
  intros H; destruct (starts_with_inv _ _ H) as [t ->].
  rewrite length_app; lia.
Qed.

Lemma occurs_at_iff (v n : wstring) (q : nat) :
  occurs_at v n q <-> q <= length v /\ starts_with n (skipn q v) = true.
Proof.
  split.
  - intros (u & t & -> & <-). split.
    + rewrite length_app; lia.
    + rewrite skipn_app, skipn_all, Nat.sub_diag; simpl.
      apply starts_with_app.
  - intros [Hq H]. destruct (starts_with_inv _ _ H) as [t Ht].
    exists (firstn q v), t. split.
    + rewrite <- Ht. symmetry; apply firstn_skipn.
    + apply firstn_length_le; exact Hq.
Qed.

Lemma occurs_at_bound (v n : wstring) (q : nat) :
  occurs_at v n q -> q + length n <= length v.
Proof.
  intros (u & t & -> & <-). rewrite !length_app; lia.
Qed.

(** ** [find] returns the first occurrence at or after [pos] *)

Lemma find_from_Some (rest n : wstring) (pos p : nat) :
  find_from rest n pos = Some p ->
  exists k, p = pos + k /\ k <= length rest /\
    starts_with n (skipn k rest) = true /\
    forall j, j < k -> starts_with n (skipn j rest) = false.
Proof.
  revert pos; induction rest as [|c rest IH]; intros pos H; simpl in H.
  - destruct (starts_with n []) eqn:E; [|discriminate].
    injection H as <-. exists 0; repeat split; simpl; auto; lia.
  - destruct (starts_with n (c :: rest)) eqn:E.
    + injection H as <-. exists 0; repeat split; simpl; auto; lia.
    + destruct (IH _ H) as (k & -> & Hk & Hs & Hmin).
      exists (S k); repeat split; simpl; auto; try lia.
      intros [|j] Hj; simpl; [exact E|apply Hmin; lia].
Qed.

Lemma find_from_None (rest n : wstring) (pos : nat) :
  find_from rest n pos = None ->
  forall j, starts_with n (skipn j rest) = false.
Proof.
  revert pos; induction rest as [|c rest IH]; intros pos H j; simpl in H.
  - destruct (starts_with n []) eqn:E; [discriminate|].
    now rewrite skipn_nil.
  - destruct (starts_with n (c :: rest)) eqn:E; [discriminate|].
    destruct j as [|j]; simpl; [exact E|eapply IH; eauto].
Qed.

Lemma find_Some (v n : wstring) (pos p : nat) :
  find v n pos = Some p ->
  pos <= p /\ occurs_at v n p /\
  forall q, pos <= q < p -> ~ occurs_at v n q.
Proof.
  unfold find. destruct (Nat.leb pos (length v)) eqn:Hle; [|discriminate].
  apply Nat.leb_le in Hle. intros H.
  destruct (find_from_Some _ _ _ _ H) as (k & -> & Hk & Hs & Hmin).
  rewrite length_skipn in Hk. rewrite skipn_skipn in Hs.
  split; [lia|]. split.
  - apply occurs_at_iff. split; [lia|]. now rewrite Nat.add_comm.
  - intros q Hq Hocc. apply occurs_at_iff in Hocc as [_ Hocc].
    specialize (Hmin (q - pos) ltac:(lia)).
    rewrite skipn_skipn in Hmin.
    replace (q - pos + pos) with q in Hmin by lia. congruence.
Qed.

Lemma find_None (v n : wstring) (pos : nat) :
  find v n pos = None -> forall q, pos <= q -> ~ occurs_at v n q.
Proof.
  unfold find. destruct (Nat.leb pos (length v)) eqn:Hle.
  - intros H q Hq Hocc. apply occurs_at_iff in Hocc as [_ Hocc].
    pose proof (find_from_None _ _ _ H (q - pos)) as Hn.
    rewrite skipn_skipn in Hn.
    replace (q - pos + pos) with q in Hn by lia. congruence.
  - apply Nat.leb_gt in Hle. intros _ q Hq Hocc.
    apply occurs_at_iff in Hocc as [Hocc _]. lia.
Qed.

Lemma find_None_intro (v n : wstring) (pos : nat) :
  (forall q, pos <= q -> ~ occurs_at v n q) -> find v n pos = None.
Proof.
  intros H. destruct (find v n pos) as [p|] eqn:E; [|reflexivity].
  destruct (find_Some _ _ _ _ E) as (Hp & Hocc & _).
  exfalso; exact (H p Hp Hocc).
Qed.

Lemma find_app (done rest n : wstring) :
  find (done ++ rest) n (length done) = find_from rest n (length done).
Proof.
  unfold find. rewrite length_app.
  replace (Nat.leb (length done) (length done + length rest)) with true
    by (symmetry; apply Nat.leb_le; lia).
  now rewrite skipn_app, skipn_all, Nat.sub_diag.
Qed.

Lemma replace_app (u n t r : wstring) :
  replace (u ++ n ++ t) (length u) (length n) r = u ++ r ++ t.
Proof.
  unfold replace.
  rewrite firstn_app, firstn_all, Nat.sub_diag, firstn_O, app_nil_r.
  rewrite skipn_app, (skipn_all2 u) by lia.
  replace (length u + length n - length u) with (length n) by lia.
  now rewrite skipn_app, skipn_all, Nat.sub_diag.
Qed.

(** What a successful [find_from] says about the text it scanned. *)
Lemma find_from_split (rest n : wstring) (pos p : nat) :
  find_from rest n pos = Some p ->
  exists a t, rest = a ++ n ++ t /\ p = pos + length a /\
    forall j, j < length a -> starts_with n (skipn j rest) = false.
Proof.
  intros H. destruct (find_from_Some _ _ _ _ H) as (k & -> & Hk & Hs & Hmin).
  destruct (starts_with_inv _ _ Hs) as [t Ht].
  exists (firstn k rest), t.
  rewrite (firstn_length_le _ Hk). repeat split; auto.
  rewrite <- Ht. symmetry; apply firstn_skipn.
Qed.

(** ** The loop and the specification's substitution *)

Lemma substitute_skip (n r : wstring) (k : nat) (s : wstring) :
  substitute n r k s = substitute n r 0 (skipn k s).
Proof.
  revert k; induction s as [|c s IH]; intros [|k]; simpl; auto.
Qed.

Lemma substitute_match (n r s : wstring) :
  n <> [] -> starts_with n s = true ->
  substitute n r 0 s = r ++ substitute n r 0 (skipn (length n) s).
Proof.
  intros Hn H. destruct s as [|c s].
  - destruct n; [congruence|discriminate].
  - cbn [substitute]. rewrite H, substitute_skip.
    destruct n as [|a n]; [congruence|]. simpl.
    now rewrite Nat.sub_0_r.
Qed.

Lemma substitute_copy (n r a s : wstring) :
  (forall j, j < length a -> starts_with n (skipn j (a ++ s)) = false) ->
  substitute n r 0 (a ++ s) = a ++ substitute n r 0 s.
Proof.
  induction a as [|c a IH]; intros H; [reflexivity|].
  pose proof (H 0 ltac:(simpl; lia)) as H0. cbn [skipn app] in H0.
  cbn [app substitute]. rewrite H0. f_equal. apply IH.
  intros j Hj. apply (H (S j)). simpl; lia.
Qed.

Lemma substitute_none (n r s : wstring) :
  (forall j, starts_with n (skipn j s) = false) -> substitute n r 0 s = s.
Proof.
  intros H. rewrite <- (app_nil_r s) at 1.
  rewrite substitute_copy; [now rewrite app_nil_r|].
  intros j _. rewrite app_nil_r. apply H.
Qed.

(** The loop, started after [done] with [rest] still to scan, returns
    [done] followed by the substitution over [rest], as soon as the fuel
    exceeds the length of [rest]. *)
Lemma Replace_loop_refines (n r : wstring) (Hn : n <> []) (fuel : nat) :
  forall done rest, length rest < fuel ->
  Replace_loop fuel n r (done ++ rest) (length done)
  = Some (done ++ substitute n r 0 rest).
Proof.
  induction fuel as [|fuel IH]; intros done rest Hf; [lia|].
  cbn [Replace_loop]. rewrite find_app.
  destruct (find_from rest n (length done)) as [p|] eqn:E.
  - destruct (find_from_split _ _ _ _ E) as (a & t & -> & -> & Hmin).
    rewrite (app_assoc done a), <- length_app, replace_app.
    rewrite <- length_app.
    replace ((done ++ a) ++ r ++ t) with (((done ++ a) ++ r) ++ t)
      by now rewrite <- !app_assoc.
    rewrite IH.
    + rewrite substitute_copy by exact Hmin.
      rewrite (substitute_match n r (n ++ t) Hn (starts_with_app n t)).
      rewrite skipn_app, skipn_all, Nat.sub_diag. simpl.
      now rewrite <- !app_assoc.
    + rewrite !length_app in Hf. destruct n; [congruence|]. simpl in Hf. lia.
  - rewrite substitute_none; [reflexivity|].
    eapply find_from_None; eauto.
Qed.

Lemma Replace_refines (h n r : wstring) :
  n <> [] -> Replace h n r = Some (replace_spec h n r).
Proof.
  intros Hn. unfold Replace, replace_spec.
  apply (Replace_loop_refines n r Hn (S (length h)) [] h). lia.
Qed.

(** More fuel than the unscanned text is long never changes the result. *)
Lemma Replace_loop_fuel (h n r : wstring) (fuel : nat) :
  n <> [] -> length h < fuel ->
  Replace_loop fuel n r h 0 = Replace h n r.
Proof.
  intros Hn Hf. rewrite Replace_refines by exact Hn.
  apply (Replace_loop_refines n r Hn fuel [] h Hf).
Qed.

(** ** Counting occurrences *)

Lemma occurs_at_cons (c : wchar_t) (v n : wstring) (q : nat) :
  occurs_at (c :: v) n (S q) <-> occurs_at v n q.
Proof.
  rewrite !occurs_at_iff. simpl. intuition lia.
Qed.

Lemma occurrences_zero (v n : wstring) :
  occurrences v n = 0 <-> forall q, ~ occurs_at v n q.
Proof.
  induction v as [|c v IH]; simpl.
  - split.
    + intros H q Hq. apply occurs_at_iff in Hq as [Hq Hs].
      rewrite skipn_nil in Hs. rewrite Hs in H. discriminate.
    + intros H. destruct (starts_with n []) eqn:E; [|reflexivity].
      exfalso. apply (H 0). apply occurs_at_iff. simpl. auto.
  - split.
    + intros H [|q] Hq.
      * apply occurs_at_iff in Hq as [_ Hs]. simpl in Hs.
        rewrite Hs in H. discriminate.
      * apply occurs_at_cons in Hq.
        destruct (starts_with n (c :: v)); [discriminate|].
        simpl in H. exact (proj1 IH H q Hq).
    + intros H. destruct (starts_with n (c :: v)) eqn:E.
      * exfalso. apply (H 0). apply occurs_at_iff. simpl. split; [lia|auto].
      * simpl. apply (proj2 IH). intros q Hq. apply (H (S q)).
        now apply occurs_at_cons.
Qed.

(** ** Occurrences across an inserted replacement *)

Lemma starts_with_app_l (n b x : wstring) :
  length n <= length b -> starts_with n (b ++ x) = starts_with n b.
Proof.
  revert b; induction n as [|a n IH]; intros b H; [reflexivity|].
  destruct b as [|c b]; simpl in *; [lia|].
  rewrite IH by lia. reflexivity.
Qed.

Lemma starts_with_compatible (n a t : wstring) :
  starts_with n (a ++ t) = true -> compatible n a = true.
Proof.
  unfold compatible. revert a; induction n as [|x n IH]; intros a H.
  - reflexivity.
  - destruct a as [|y a]; [apply orb_true_r|].
    simpl in *. apply andb_true_iff in H as [Hxy H].
    apply Z.eqb_eq in Hxy; subst y. rewrite Z.eqb_refl. simpl.
    apply IH. exact H.
Qed.

Lemma starts_with_skip (n a b : wstring) :
  length a <= length n -> starts_with n (a ++ b) = true ->
  starts_with (skipn (length a) n) b = true.
Proof.
  revert n; induction a as [|c a IH]; intros n Hl H; [exact H|].
  destruct n as [|x n]; simpl in *; [lia|].
  apply andb_true_iff in H as [_ H]. apply IH; [lia|exact H].
Qed.

Lemma occurs_at_within (u x y n : wstring) (q : nat) :
  q + length n <= length u ->
  occurs_at (u ++ x) n q -> occurs_at (u ++ y) n q.
Proof.
  intros Hq H. apply occurs_at_iff in H as [_ H]. apply occurs_at_iff.
  split; [rewrite length_app; lia|].
  rewrite skipn_app in *.
  replace (q - length u) with 0 in * by lia. simpl in *.
  rewrite starts_with_app_l in * by (rewrite length_skipn; lia).
  exact H.
Qed.

(** Under [boundary_safe], an occurrence that begins before the end of an
    inserted replacement ends before the replacement begins. *)
Lemma boundary_safe_before (n r u t : wstring) (q : nat) :
  boundary_safe n r = true ->
  occurs_at (u ++ r ++ t) n q -> q < length u + length r ->
  q + length n <= length u.
Proof.
  intros Hs Hocc Hq. unfold boundary_safe in Hs.
  apply andb_true_iff in Hs as [Hleft Hinside].
  rewrite forallb_forall in Hleft, Hinside.
  apply occurs_at_iff in Hocc as [_ Hocc].
  destruct (Nat.le_gt_cases (length u) q) as [Hge|Hlt].
  - exfalso. rewrite skipn_app, (skipn_all2 u) in Hocc by lia.
    rewrite skipn_app in Hocc.
    replace (q - length u - length r) with 0 in Hocc by lia.
    simpl in Hocc. apply starts_with_compatible in Hocc.
    specialize (Hinside (q - length u)).
    rewrite Hocc in Hinside. discriminate Hinside.
    apply in_seq. lia.
  - destruct (Nat.le_gt_cases (q + length n) (length u)) as [|Hover]; [auto|].
    exfalso. rewrite skipn_app in Hocc.
    replace (q - length u) with 0 in Hocc by lia. simpl in Hocc.
    apply starts_with_skip in Hocc; [|rewrite length_skipn; lia].
    apply starts_with_compatible in Hocc.
    specialize (Hleft (length (skipn q u))).
    rewrite Hocc in Hleft. discriminate Hleft.
    apply in_seq. rewrite length_skipn. lia.
Qed.

(** The loop keeps the scanned part free of the needle. *)
Lemma Replace_loop_clean (n r : wstring) (fuel : nat) :
  n <> [] -> boundary_safe n r = true ->
  forall done rest v,
    (forall q, q < length done -> ~ occurs_at (done ++ rest) n q) ->
    Replace_loop fuel n r (done ++ rest) (length done) = Some v ->
    forall q, ~ occurs_at v n q.
Proof.
  intros Hn Hs. induction fuel as [|fuel IH]; intros done rest v Inv H;
    [discriminate|].
  cbn [Replace_loop] in H.
  destruct (find (done ++ rest) n (length done)) as [p|] eqn:E.
  - destruct (find_Some _ _ _ _ E) as (_ & _ & Hmin).
    rewrite find_app in E.
    destruct (find_from_split _ _ _ _ E) as (a & t & -> & -> & _).
    rewrite (app_assoc done a), <- length_app, replace_app in H.
    rewrite <- length_app in H.
    replace ((done ++ a) ++ r ++ t) with (((done ++ a) ++ r) ++ t) in H
      by now rewrite <- !app_assoc.
    refine (IH _ _ _ _ H). clear H IH.
    intros q Hq Hocc. rewrite <- (app_assoc (done ++ a)) in Hocc.
    rewrite (length_app (done ++ a)) in Hq.
    pose proof (boundary_safe_before n r (done ++ a) t q Hs Hocc Hq) as Hin.
    apply (occurs_at_within (done ++ a) (r ++ t) (n ++ t) n q Hin) in Hocc.
    rewrite <- app_assoc in Hocc.
    destruct (Nat.lt_ge_cases q (length done)) as [Hlt|Hge].
    + exact (Inv q Hlt Hocc).
    + apply (Hmin q); [|exact Hocc].
      rewrite length_app in Hin. destruct n; [congruence|]. simpl in Hin. lia.
  - injection H as <-. intros q Hocc.
    destruct (Nat.lt_ge_cases q (length done)) as [Hlt|Hge].
    + exact (Inv q Hlt Hocc).
    + exact (find_None _ _ _ E q Hge Hocc).
Qed.

(** With an empty needle every evaluation of the loop condition finds a
    match, whatever the fuel. *)
Lemma Replace_loop_empty_needle (r : wstring) (fuel : nat) :
  forall value pos, pos <= length value ->
  Replace_loop fuel [] r value pos = None.
Proof.
  induction fuel as [|fuel IH]; intros value pos Hp; [reflexivity|].
  cbn [Replace_loop]. unfold find.
  replace (Nat.leb pos (length value)) with true
    by (symmetry; apply Nat.leb_le; lia).
  replace (find_from (skipn pos value) [] pos) with (Some pos)
    by (destruct (skipn pos value); reflexivity).
  apply IH. unfold replace.
  rewrite !length_app, length_firstn, length_skipn. simpl. lia.
Qed.

Lemma boundary_safe_replacement (n r : wstring) :
  n <> [] -> boundary_safe n r = true -> occurrences r n = 0.
Proof.
  intros Hn Hs. apply occurrences_zero. intros q Hocc.
  pose proof (occurs_at_bound _ _ _ Hocc) as Hb.
  assert (Hq : q < length r) by (destruct n; [congruence|simpl in Hb; lia]).
  apply occurs_at_iff in Hocc as [_ Hocc].
  unfold boundary_safe in Hs. apply andb_true_iff in Hs as [_ Hinside].
  rewrite forallb_forall in Hinside.
  specialize (Hinside q ltac:(apply in_seq; lia)).
  rewrite <- (app_nil_r (skipn q r)) in Hocc.
  apply starts_with_compatible in Hocc.
  rewrite Hocc in Hinside. discriminate.
Qed.

(** ** The claims about [Replace] *)

(** C3, as stated, fails: with needle "ab" and replacement "b", which does
    not contain "ab", [Replace] turns "aab" into "ab": the text before the
    match and the inserted replacement join into a new occurrence that the
    scan, resumed after the replacement, never sees. *)
Lemma Replace_leaves_needle :
  ~ (forall haystack needle replacement v,
       needle <> [] -> occurrences replacement needle = 0 ->
       Replace haystack needle replacement = Some v ->
       occurrences v needle = 0).
Proof.
  intros H.
  specialize (H (L "aab") (L "ab") (L "b") (L "ab")).
  assert (E : occurrences (L "ab") (L "ab") = 0)
    by (apply H; [discriminate|reflexivity|reflexivity]).
  discriminate E.
Qed.

(** C3 (amended).  For every haystack, every non-empty needle and every
    replacement across which the needle cannot lie ([boundary_safe]: no
    proper non-empty suffix of the needle is a prefix of the replacement or
    has it as a prefix, and the needle neither is a prefix of nor has as a
    prefix a non-empty suffix of the replacement), [Replace] returns a
    string with zero occurrences of the needle.  Such a replacement does not
    contain the needle. *)
Theorem Replace_removes_all (haystack needle replacement : wstring) :
  needle <> [] -> boundary_safe needle replacement = true ->
  occurrences replacement needle = 0 /\
  exists v, Replace haystack needle replacement = Some v /\
            occurrences v needle = 0.
Proof.
  intros Hn Hs. split; [now apply boundary_safe_replacement|].
  exists (replace_spec haystack needle replacement).
  pose proof (Replace_refines haystack needle replacement Hn) as E.
  split; [exact E|]. apply occurrences_zero.
  apply (Replace_loop_clean needle replacement (S (length haystack)) Hn Hs
           [] haystack); [simpl; intros; lia|exact E].
Qed.

(** The program's own pair of needle and replacement is [boundary_safe]. *)
Lemma Replace_removes_all_witness :
  FROM_NAME <> [] /\ boundary_safe FROM_NAME TO_NAME = true /\
  (occurrences TO_NAME FROM_NAME = 0 /\
   exists v, Replace (L "C:\Users\from\Users\from") FROM_NAME TO_NAME = Some v
             /\ occurrences v FROM_NAME = 0).
Proof.
  split; [discriminate|]. split; [reflexivity|].
  apply (Replace_removes_all (L "C:\Users\from\Users\from") FROM_NAME TO_NAME);
    [discriminate|reflexivity].
Defined.

(** C5.  [Replace] scans left to right over non-overlapping occurrences
    and never rescans what it inserted: for a non-empty needle it returns
    the one-pass substitution [replace_spec], which only emits the
    replacement; after each round the position stands right behind the
    inserted replacement and the text still to scan is the old text behind
    the needle.  Replace("aaa", "aa", "b") is "ba", and both occurrences of
    "Users\from" in "Users\from\docs\Users\from\x" become "Users\to". *)
Theorem Replace_left_to_right :
  (forall haystack needle replacement,
     needle <> [] ->
     Replace haystack needle replacement
     = Some (replace_spec haystack needle replacement))
  /\ (forall value needle replacement pos p,
        find value needle pos = Some p ->
        let value' := replace value p (length needle) replacement in
        let pos' := p + length replacement in
        firstn pos' value' = firstn p value ++ replacement /\
        skipn pos' value' = skipn (p + length needle) value)
  /\ Replace (L "aaa") (L "aa") (L "b") = Some (L "ba")
  /\ Replace (L "Users\from\docs\Users\from\x") (L "Users\from")
       (L "Users\to")
     = Some (L "Users\to\docs\Users\to\x").
Proof.
  split; [exact Replace_refines|]. split; [|split; reflexivity].
  intros value needle replacement pos p H.
  destruct (find_Some _ _ _ _ H) as (_ & (u & t & -> & <-) & _).
  cbv zeta. rewrite replace_app.
  rewrite (app_assoc u replacement t), <- (length_app u replacement).
  rewrite firstn_app, firstn_all, Nat.sub_diag, firstn_O, app_nil_r.
  rewrite skipn_app, skipn_all, Nat.sub_diag.
  rewrite firstn_app, firstn_all, Nat.sub_diag, firstn_O, app_nil_r.
  rewrite (app_assoc u needle t), <- (length_app u needle).
  rewrite skipn_app, skipn_all, Nat.sub_diag.
  split; reflexivity.
Qed.

Lemma Replace_left_to_right_witness :
  Replace (L "abcabc") (L "bc") (L "cb")
  = Some (replace_spec (L "abcabc") (L "bc") (L "cb")).
Proof.
  apply (proj1 Replace_left_to_right); discriminate.
Defined.

(** C8.  For every string [s] with no occurrence of the needle and every
    replacement, [Replace] returns [s] unchanged. *)
Theorem Replace_needle_free (s needle replacement : wstring) :
  occurrences s needle = 0 -> Replace s needle replacement = Some s.
Proof.
  intros H. unfold Replace. cbn [Replace_loop].
  rewrite find_None_intro; [reflexivity|].
  intros q _. now apply occurrences_zero.
Qed.

Lemma Replace_needle_free_witness :
  occurrences (L "C:\Windows\system32") FROM_NAME = 0 /\
  Replace (L "C:\Windows\system32") FROM_NAME TO_NAME
  = Some (L "C:\Windows\system32").
Proof.
  split; [reflexivity|].
  apply (Replace_needle_free (L "C:\Windows\system32") FROM_NAME TO_NAME).
  reflexivity.
Defined.

(** C9.  With a non-empty needle the loop of [Replace] returns, for every
    haystack and replacement, as soon as it may evaluate its condition
    more often than the haystack is long, and always the same string; each
    round strictly shortens the text behind the position.  With an empty
    needle the loop has not returned after any number of rounds. *)
Theorem Replace_terminates :
  (forall haystack needle replacement,
     needle <> [] ->
     exists v, Replace haystack needle replacement = Some v /\
       forall fuel, length haystack < fuel ->
         Replace_loop fuel needle replacement haystack 0 = Some v)
  /\ (forall value needle replacement pos p,
        needle <> [] -> find value needle pos = Some p ->
        length (replace value p (length needle) replacement)
          - (p + length replacement)
        < length value - pos)
  /\ (forall haystack replacement fuel,
        Replace_loop fuel [] replacement haystack 0 = None).
Proof.
  split; [|split].
  - intros h n r Hn. exists (replace_spec h n r).
    split; [now apply Replace_refines|].
    intros fuel Hf. rewrite Replace_loop_fuel by assumption.
    now apply Replace_refines.
  - intros value n r pos p Hn H.
    destruct (find_Some _ _ _ _ H) as (Hp & (u & t & -> & <-) & _).
    rewrite replace_app, !length_app.
    destruct n; [congruence|]. simpl. lia.
  - intros h r fuel. apply Replace_loop_empty_needle. lia.
Qed.

Lemma Replace_terminates_witness :
  exists v, Replace (L "aaa") (L "aa") (L "b") = Some v /\
    forall fuel, length (L "aaa") < fuel ->
      Replace_loop fuel (L "aa") (L "b") (L "aaa") 0 = Some v.
Proof.
  apply (proj1 Replace_terminates); discriminate.
Defined.

(** ** The walker: loops *)

Section WalkerProperties.

Context {R : Registry}.

Lemma for_loop_app (n m : nat) (body : DWORD -> Z -> World -> walk) :
  forall i count w,
  for_loop (n + m) i body count w
  = match for_loop n i body count w with
    | Some (true, count', w') =>
        for_loop m (i + Z.of_nat n)%Z body count' w'
    | r => r
    end.
Proof.
  induction n as [|n IH]; intros i count w.
  - simpl. now rewrite Z.add_0_r.
  - cbn [Nat.add for_loop].
    destruct (body i count w) as [[[[] c1] w1]|]; try reflexivity.
    rewrite IH. replace (i + 1 + Z.of_nat n)%Z with (i + Z.of_nat (S n))%Z
      by lia. reflexivity.
Qed.

(** A round that yields [false] ends the loop with that result. *)
Lemma for_loop_abort_at (n k : nat) (body : DWORD -> Z -> World -> walk)
  (count : Z) (w : World) (count1 : Z) (w1 : World) (count2 : Z)
  (w2 : World) :
  k < n ->
  for_loop k 0%Z body count w = Some (true, count1, w1) ->
  body (Z.of_nat k) count1 w1 = Some (false, count2, w2) ->
  for_loop n 0%Z body count w = Some (false, count2, w2).
Proof.
  intros Hk Hpre Hbody.
  replace n with (k + S (n - S k)) by lia.
  rewrite for_loop_app, Hpre. cbn [for_loop].
  rewrite Z.add_0_l, Hbody. reflexivity.
Qed.

Lemma for_loop_ext (n : nat) (body1 body2 : DWORD -> Z -> World -> walk) :
  (forall i count w res,
     body1 i count w = Some res -> body2 i count w = Some res) ->
  forall i count w res,
  for_loop n i body1 count w = Some res ->
  for_loop n i body2 count w = Some res.
Proof.
  intros Hb. induction n as [|n IH]; intros i count w res H; [exact H|].
  cbn [for_loop] in *.
  destruct (body1 i count w) as [[[b c1] w1]|] eqn:E; [|discriminate].
  rewrite (Hb _ _ _ _ E). destruct b; [now apply IH|exact H].
Qed.

(** ** More fuel keeps the result of a walk *)

Lemma iter_subkey_ext (rec1 rec2 : RegKey -> Z -> World -> walk)
  (keyHolder : RegKey) :
  (forall k count w res,
     rec1 k count w = Some res -> rec2 k count w = Some res) ->
  forall i count w res,
  iter_subkey rec1 keyHolder i count w = Some res ->
  iter_subkey rec2 keyHolder i count w = Some res.
Proof.
  intros Hrec i count w res. unfold iter_subkey.
  destruct (RegEnumKeyEx _ _ _ _) as [errValue keyName].
  destruct (negb _); [auto|].
  destruct (RegKey_new _ _ _ _) as [subKey|]; [|auto].
  destruct (_ && _); [auto|].
  destruct (isValid subKey); auto.
Qed.

Lemma iter_fuel_S (fuel : nat) :
  forall keyHolder count w res,
  iter fuel keyHolder count w = Some res ->
  iter (S fuel) keyHolder count w = Some res.
Proof.
  induction fuel as [|fuel IH]; intros keyHolder count w res H;
    [discriminate|].
  cbn [iter] in H. remember (S fuel) as fuel1. cbn [iter]. subst fuel1.
  destruct (getSubkeyCount keyHolder) as [subkeys|]; [|discriminate].
  destruct (getValueCount keyHolder) as [values|]; [|discriminate].
  destruct (for_loop _ _ (iter_subkey (iter fuel) keyHolder) count w)
    as [res1|] eqn:E; [|discriminate].
  rewrite (for_loop_ext _ _ _ (iter_subkey_ext _ _ keyHolder IH) _ _ _ _ E).
  exact H.
Qed.

Lemma iter_fuel_mono (fuel fuel' : nat) keyHolder count w res :
  fuel <= fuel' ->
  iter fuel keyHolder count w = Some res ->
  iter fuel' keyHolder count w = Some res.
Proof.
  induction 1 as [|fuel' _ IH]; intros H; [exact H|].
  apply iter_fuel_S. now apply IH.
Qed.

(** ** Relations that every walk keeps *)

Section Invariant.

Variable P : Z -> World -> bool * Z * World -> Prop.
Hypothesis P_continue : forall count w, P count w (true, count, w).
Hypothesis P_abort : forall count w, P count w (false, count, w).
Hypothesis P_then : forall count w count1 w1 res,
  P count w (true, count1, w1) -> P count1 w1 res -> P count w res.
Hypothesis P_value : forall keyHolder i count w res,
  iter_value keyHolder i count w = Some res -> P count w res.

Lemma for_loop_keeps (n : nat) (body : DWORD -> Z -> World -> walk) :
  (forall i count w res, body i count w = Some res -> P count w res) ->
  forall i count w res,
  for_loop n i body count w = Some res -> P count w res.
Proof.
  intros Hb. induction n as [|n IH]; intros i count w res H.
  - injection H as <-. apply P_continue.
  - cbn [for_loop] in H.
    destruct (body i count w) as [[[b c1] w1]|] eqn:E; [|discriminate].
    apply Hb in E. destruct b.
    + eapply P_then; [exact E|]. eapply IH; eauto.
    + injection H as <-. exact E.
Qed.

Lemma iter_subkey_keeps (rec : RegKey -> Z -> World -> walk)
  (keyHolder : RegKey) :
  (forall k count w res, rec k count w = Some res -> P count w res) ->
  forall i count w res,
  iter_subkey rec keyHolder i count w = Some res -> P count w res.
Proof.
  intros Hrec i count w res. unfold iter_subkey.
  destruct (RegEnumKeyEx _ _ _ _) as [errValue keyName].
  destruct (negb _); [intros [= <-]; apply P_abort|].
  destruct (RegKey_new _ _ _ _) as [subKey|]; [|discriminate].
  destruct (_ && _); [intros [= <-]; apply P_abort|].
  destruct (isValid subKey); [apply Hrec|intros [= <-]; apply P_continue].
Qed.

Lemma iter_keeps (fuel : nat) :
  forall keyHolder count w res,
  iter fuel keyHolder count w = Some res -> P count w res.
Proof.
  induction fuel as [|fuel IH]; intros keyHolder count w res H;
    [discriminate|].
  cbn [iter] in H.
  destruct (getSubkeyCount keyHolder) as [subkeys|]; [|discriminate].
  destruct (getValueCount keyHolder) as [values|]; [|discriminate].
  destruct (for_loop _ _ (iter_subkey (iter fuel) keyHolder) count w)
    as [[[b c1] w1]|] eqn:E; [|discriminate].
  apply (for_loop_keeps _ _ (iter_subkey_keeps _ keyHolder IH)) in E.
  destruct b.
  - eapply P_then; [exact E|].
    eapply for_loop_keeps; [|exact H]. apply P_value.
  - injection H as <-. exact E.
Qed.

End Invariant.

(** ** The loop bodies at a failing call *)

Lemma RegKey_new_open (st : store) (parent : HKEY) (name : wstring)
  (depth : Z) (e : DWORD) (hk : HKEY) :
  length name < NAME_BUFFER ->
  RegOpenKeyEx st parent name 0%Z open_flags = (e, hk) ->
  RegKey_new st parent name depth
  = Some (mkRegKey depth e (Z.eqb e ERROR_SUCCESS) hk name
            (if Z.eqb e ERROR_SUCCESS then Some (getInfo st hk) else None)).
Proof.
  intros Hl Ho. unfold RegKey_new.
  replace (Nat.ltb (length name) NAME_BUFFER) with true
    by (symmetry; apply Nat.ltb_lt; exact Hl).
  rewrite Ho. reflexivity.
Qed.

Lemma iter_subkey_denied (rec : RegKey -> Z -> World -> walk)
  (keyHolder : RegKey) (i : DWORD) (count : Z) (w : World)
  (keyName : wstring) (hk : HKEY) :
  RegEnumKeyEx (registry w) (getKey keyHolder) i MAX_KEY_LENGTH
  = (ERROR_SUCCESS, keyName) ->
  length keyName < NAME_BUFFER ->
  RegOpenKeyEx (registry w) (getKey keyHolder) keyName 0%Z open_flags
  = (ERROR_ACCESS_DENIED, hk) ->
  iter_subkey rec keyHolder i count w = Some (true, count, w).
Proof.
  intros He Hl Ho. unfold iter_subkey. rewrite He. cbn [negb Z.eqb].
  rewrite (RegKey_new_open _ _ _ _ _ _ Hl Ho). reflexivity.
Qed.

Lemma iter_subkey_fatal (rec : RegKey -> Z -> World -> walk)
  (keyHolder : RegKey) (i : DWORD) (count : Z) (w : World)
  (keyName : wstring) (e : DWORD) (hk : HKEY) :
  RegEnumKeyEx (registry w) (getKey keyHolder) i MAX_KEY_LENGTH
  = (ERROR_SUCCESS, keyName) ->
  length keyName < NAME_BUFFER ->
  RegOpenKeyEx (registry w) (getKey keyHolder) keyName 0%Z open_flags
  = (e, hk) ->
  e <> ERROR_SUCCESS -> e <> ERROR_FILE_NOT_FOUND ->
  e <> ERROR_ACCESS_DENIED ->
  iter_subkey rec keyHolder i count w = Some (false, count, w).
Proof.
  intros He Hl Ho H1 H2 H3. unfold iter_subkey. rewrite He.
  cbn [negb Z.eqb]. rewrite (RegKey_new_open _ _ _ _ _ _ Hl Ho).
  unfold isValid, getErrorCode. cbn [isValidb errorCode].
  apply Z.eqb_neq in H1, H2, H3. rewrite H1, H2, H3. reflexivity.
Qed.

Lemma iter_abort_in_subkeys (fuel : nat) (keyHolder : RegKey)
  (inf : KeyInfo) (count : Z) (w : World) (k : nat) (count1 : Z)
  (w1 : World) (count2 : Z) (w2 : World) :
  info keyHolder = Some inf ->
  k < Z.to_nat (subkeyCount inf) ->
  for_loop k 0%Z (iter_subkey (iter fuel) keyHolder) count w
  = Some (true, count1, w1) ->
  iter_subkey (iter fuel) keyHolder (Z.of_nat k) count1 w1
  = Some (false, count2, w2) ->
  iter (S fuel) keyHolder count w = Some (false, count2, w2).
Proof.
  intros Hi Hk Hpre Hbody. cbn [iter].
  unfold getSubkeyCount, getValueCount. rewrite Hi. cbn [option_map].
  now rewrite (for_loop_abort_at _ _ _ _ _ _ _ _ _ Hk Hpre Hbody).
Qed.

Lemma meets_fatal_open_aborts (fuel : nat) keyHolder count w count' w' :
  meets_fatal_open fuel keyHolder count w count' w' ->
  iter fuel keyHolder count w = Some (false, count', w').
Proof.
  induction 1 as
    [fuel keyHolder inf count w k count' w' keyName e hk Hi Hk Hpre He Hl Ho
       H1 H2 H3
    |fuel keyHolder inf count w k count1 w1 keyName subKey count' w' Hi Hk
       Hpre He Hnew Hv _ IH].
  - eapply iter_abort_in_subkeys; eauto.
    eapply iter_subkey_fatal; eauto.
  - eapply iter_abort_in_subkeys; eauto.
    unfold iter_subkey. rewrite He. cbn [negb Z.eqb]. rewrite Hnew, Hv.
    cbn [negb andb]. exact IH.
Qed.



(** ** The counter and the writes *)

Lemma attempted_app (a b : list SetValueCall) :
  attempted (a ++ b) = (attempted a + attempted b)%Z.
Proof. unfold attempted. rewrite length_app. lia. Qed.

Lemma written_app (a b : list SetValueCall) :
  written (a ++ b) = (written a + written b)%Z.
Proof. unfold written. rewrite filter_app, length_app. lia. Qed.

Lemma accounted_then (count : Z) (w : World) (count1 : Z) (w1 : World)
  (res : bool * Z * World) :
  accounted count w (true, count1, w1) -> accounted count1 w1 res ->
  accounted count w res.
Proof.
  destruct res as [[r count2] w2].
  intros (l1 & Hw1 & Hc1 & Ha1 & Hu1) (l2 & Hw2 & Hc2 & Ha2 & Hu2).
  specialize (Hu1 eq_refl).
  exists (l2 ++ l1). rewrite Hw2, Hw1, app_assoc.
  rewrite attempted_app, written_app.
  assert (Hu : unwritten (l2 ++ l1) = unwritten l2)
    by (destruct l2; [exact Hu1|reflexivity]).
  rewrite Hu. repeat split; auto; lia.
Qed.

Lemma accounted_same (r : bool) (count : Z) (w : World) :
  accounted count w (r, count, w).
Proof.
  exists []. cbn. repeat split; auto; lia.
Qed.

Lemma iter_value_accounted (keyHolder : RegKey) (i : DWORD) (count : Z)
  (w : World) (res : bool * Z * World) :
  iter_value keyHolder i count w = Some res -> accounted count w res.
Proof.
  unfold iter_value.
  destruct (RegEnumValue _ _ _ _) as [errValue valueName].
  destruct (negb _); [intros [= <-]; apply accounted_same|].
  destruct (getLongestValueData keyHolder) as [longest|]; [|discriminate].
  destruct (RegGetValue _ _ _ _ _) as [errValue' data].
  destruct (_ && _); [intros [= <-]; apply accounted_same|].
  destruct (Z.eqb errValue' ERROR_SUCCESS);
    [|intros [= <-]; apply accounted_same].
  destruct (wcsstr data FROM_NAME); [|intros [= <-]; apply accounted_same].
  unfold increment. destruct (count <? INT_MAX)%Z; [|discriminate].
  destruct (Replace _ _ _) as [replaced|]; [|discriminate].
  destruct (RegSetValueEx _ _ _ _ _ _) as [setRes st'].
  destruct (Z.eqb setRes ERROR_SUCCESS) eqn:E; cbn [negb]; intros [= <-];
    (eexists [_]; cbn [writes app]; split; [reflexivity|]);
    unfold attempted, written, unwritten; cbn [filter sv_status length];
    rewrite E; cbn; repeat split; try lia; discriminate.
Qed.

Lemma iter_accounted (fuel : nat) keyHolder count w res :
  iter fuel keyHolder count w = Some res -> accounted count w res.
Proof.
  apply (iter_keeps accounted (accounted_same true) (accounted_same false)
           accounted_then iter_value_accounted).
Qed.

End WalkerProperties.

(** ** The claims about [RegKey] and [iter] *)

Section WalkerClaims.

Context {R : Registry}.

(** C7.  When the open of a key fails, the handle records the code that
    [RegOpenKeyEx] returned, [isValid] is false, and the members that
    [getInfo] fills (subkey count, value count, longest value data) have
    never been written.  On every handle [isValid] is true exactly when
    the open returned ERROR_SUCCESS. *)
Theorem RegKey_open_failure (st : store) (parent : HKEY) (name : wstring)
  (depth : Z) :
  length name < NAME_BUFFER ->
  exists k,
    RegKey_new st parent name depth = Some k /\
    getErrorCode k = fst (RegOpenKeyEx st parent name 0%Z open_flags) /\
    (isValid k = true <-> getErrorCode k = ERROR_SUCCESS) /\
    (getErrorCode k <> ERROR_SUCCESS ->
       isValid k = false /\ info k = None /\
       getSubkeyCount k = None /\ getValueCount k = None /\
       getLongestValueData k = None).
Proof.
  intros Hl.
  destruct (RegOpenKeyEx st parent name 0%Z open_flags) as [e hk] eqn:Ho.
  eexists. split; [apply (RegKey_new_open _ _ _ _ _ _ Hl Ho)|].
  unfold getErrorCode, isValid, getSubkeyCount, getValueCount,
    getLongestValueData.
  cbn [errorCode isValidb info fst]. split; [reflexivity|].
  split; [apply Z.eqb_eq|].
  intros He. apply Z.eqb_neq in He. rewrite He. cbn. auto.
Qed.

(** C10.  Whenever [iter] returns, with [true] or with [false], the
    counter is at least what it was at entry. *)
Theorem iter_counter_monotone (fuel : nat) (keyHolder : RegKey) (count : Z)
  (w : World) (r : bool) (count' : Z) (w' : World) :
  iter fuel keyHolder count w = Some (r, count', w') ->
  (count <= count')%Z.
Proof.
  intros H. apply iter_accounted in H.
  destruct H as (calls & _ & Hc & _). unfold attempted in Hc. lia.
Qed.

Lemma written_le (l : list SetValueCall) : (written l <= attempted l)%Z.
Proof.
  unfold written, attempted. pose proof (filter_length_le
    (fun c => Z.eqb (sv_status c) ERROR_SUCCESS) l). lia.
Qed.

Lemma written_all (l : list SetValueCall) :
  written l = attempted l ->
  Forall (fun c => sv_status c = ERROR_SUCCESS) l.
Proof.
  induction l as [|c l IH]; intros H; [constructor|].
  pose proof (written_le l) as Hle.
  unfold written, attempted in *. cbn [filter length] in H.
  destruct (Z.eqb (sv_status c) ERROR_SUCCESS) eqn:E.
  - constructor; [now apply Z.eqb_eq|]. apply IH. cbn [length] in H. lia.
  - lia.
Qed.

(** C2 (amended).  The counter is incremented once per value whose string
    contains the target, before that value is written: across a walk that
    returns, the counter grows by the number of calls of [RegSetValueEx]
    the walk made ([calls], the latest first).  Every call but possibly
    the latest succeeded.  When the walk returns [true] all succeeded, so
    the counter grew by the number of values written; when the latest
    call failed the walk returns [false] and the counter grew by the
    number of values written plus one. *)
Theorem iter_counts_attempts (fuel : nat) (keyHolder : RegKey) (count : Z)
  (w : World) (r : bool) (count' : Z) (w' : World) :
  iter fuel keyHolder count w = Some (r, count', w') ->
  exists calls,
    writes w' = calls ++ writes w /\
    (count' - count = attempted calls)%Z /\
    Forall (fun c => sv_status c = ERROR_SUCCESS) (tl calls) /\
    (written calls <= attempted calls <= written calls + 1)%Z /\
    (r = true ->
     Forall (fun c => sv_status c = ERROR_SUCCESS) calls /\
     (count' - count = written calls)%Z) /\
    (forall c l,
       calls = c :: l -> sv_status c <> ERROR_SUCCESS ->
       r = false /\ (count' - count = written calls + 1)%Z).
Proof.
  intros H. apply iter_accounted in H.
  destruct H as (calls & Hw & Hc & Ha & Hu).
  exists calls. split; [exact Hw|]. split; [exact Hc|].
  assert (Hb : (0 <= unwritten calls <= 1)%Z)
    by (destruct calls as [|c l]; cbn; [|destruct (Z.eqb _ _)]; lia).
  split; [|split; [lia|split]].
  - destruct calls as [|c l]; [constructor|]. cbn [tl].
    apply written_all. revert Ha. unfold written, attempted, unwritten.
    cbn [filter length]. destruct (Z.eqb (sv_status c) ERROR_SUCCESS);
      cbn [length]; lia.
  - intros Hr. specialize (Hu Hr). split; [|lia].
    apply written_all. lia.
  - intros c l -> Hc0. apply Z.eqb_neq in Hc0.
    assert (Hu1 : unwritten (c :: l) = 1%Z) by (cbn; now rewrite Hc0).
    split; [|lia]. destruct r; [|reflexivity].
    specialize (Hu eq_refl). lia.
Qed.

(** C4.  In the loop over the subkeys, a subkey whose open returns
    ERROR_ACCESS_DENIED is passed over: whatever the recursive call would
    do, the round yields [true] with the counter and the world as they
    were, and the loop goes on with the next index.  A subkey whose open
    returns a code other than success, not-found and access-denied makes
    the round yield [false]; and a walk that comes to such a subkey, at
    its own key or at any key below it, returns [false].  The walk of the
    parent is not aborted by a denied subkey: [iter] returns what the
    subkeys behind the denied one and then the values of the parent
    yield, from the counter and the world the walk had on reaching it. *)
Theorem iter_subkey_open_failure :
  (forall rec keyHolder i count w keyName hk n,
     RegEnumKeyEx (registry w) (getKey keyHolder) i MAX_KEY_LENGTH
     = (ERROR_SUCCESS, keyName) ->
     length keyName < NAME_BUFFER ->
     RegOpenKeyEx (registry w) (getKey keyHolder) keyName 0%Z open_flags
     = (ERROR_ACCESS_DENIED, hk) ->
     iter_subkey rec keyHolder i count w = Some (true, count, w) /\
     for_loop (S n) i (iter_subkey rec keyHolder) count w
     = for_loop n (i + 1)%Z (iter_subkey rec keyHolder) count w)
  /\ (forall rec keyHolder i count w keyName e hk,
        RegEnumKeyEx (registry w) (getKey keyHolder) i MAX_KEY_LENGTH
        = (ERROR_SUCCESS, keyName) ->
        length keyName < NAME_BUFFER ->
        RegOpenKeyEx (registry w) (getKey keyHolder) keyName 0%Z open_flags
        = (e, hk) ->
        e <> ERROR_SUCCESS -> e <> ERROR_FILE_NOT_FOUND ->
        e <> ERROR_ACCESS_DENIED ->
        iter_subkey rec keyHolder i count w = Some (false, count, w))
  /\ (forall fuel keyHolder count w count' w',
        meets_fatal_open fuel keyHolder count w count' w' ->
        iter fuel keyHolder count w = Some (false, count', w'))
  /\ (forall fuel keyHolder inf count w k count1 w1 keyName hk,
        info keyHolder = Some inf ->
        k < Z.to_nat (subkeyCount inf) ->
        for_loop k 0%Z (iter_subkey (iter fuel) keyHolder) count w
        = Some (true, count1, w1) ->
        RegEnumKeyEx (registry w1) (getKey keyHolder) (Z.of_nat k)
          MAX_KEY_LENGTH = (ERROR_SUCCESS, keyName) ->
        length keyName < NAME_BUFFER ->
        RegOpenKeyEx (registry w1) (getKey keyHolder) keyName 0%Z open_flags
        = (ERROR_ACCESS_DENIED, hk) ->
        iter (S fuel) keyHolder count w
        = match for_loop (Z.to_nat (subkeyCount inf) - S k)
                  (Z.of_nat k + 1)%Z (iter_subkey (iter fuel) keyHolder)
                  count1 w1 with
          | Some (true, count2, w2) =>
              for_loop (Z.to_nat (valueCount inf)) 0%Z
                (iter_value keyHolder) count2 w2
          | r => r
          end).
Proof.
  split; [|split; [|split]].
  - intros rec keyHolder i count w keyName hk n He Hl Ho.
    pose proof (iter_subkey_denied rec _ _ count _ _ _ He Hl Ho) as E.
    split; [exact E|]. cbn [for_loop]. now rewrite E.
  - intros; eapply iter_subkey_fatal; eauto.
  - intros; now apply meets_fatal_open_aborts.
  - intros fuel keyHolder inf count w k count1 w1 keyName hk Hi Hk Hpre He
      Hl Ho.
    cbn [iter]. unfold getSubkeyCount, getValueCount. rewrite Hi.
    cbn [option_map].
    replace (Z.to_nat (subkeyCount inf))
      with (k + S (Z.to_nat (subkeyCount inf) - S k)) at 1 by lia.
    rewrite for_loop_app, Hpre. cbn [for_loop]. rewrite Z.add_0_l.
    rewrite (iter_subkey_denied (iter fuel) _ _ count1 _ _ _ He Hl Ho).
    reflexivity.
Qed.


End WalkerClaims.

(** ** The walker on tree hives *)

Lemma walk_hive_fuel_mono (fuel fuel' : nat) (st : Key) (count : Z)
  (res : bool * Z * World) :
  fuel <= fuel' ->
  walk_hive fuel st count = Some res -> walk_hive fuel' st count = Some res.
Proof.
  intros Hf. unfold walk_hive.
  destruct (RegKey_new _ _ _ _) as [root|]; [|discriminate].
  destruct (isValid root); [|discriminate].
  now apply iter_fuel_mono.
Qed.

(** C1.  On the hive with one root, one child [A] and the string value
    [p] = "C:\Users\from\data" in [A], the walk of the root, started with
    the counter at 0 and given fuel for the two levels, returns [true],
    leaves the counter at 1 and leaves "C:\Users\to\data" in [A.p]. *)
Theorem walk_hive_A (fuel : nat) :
  2 <= fuel ->
  exists w',
    walk_hive fuel hive_A 0%Z = Some (true, 1%Z, w') /\
    value_at (registry w') [L "A"] (L "p")
    = Some (Value_SZ (L "C:\Users\to\data")).
Proof.
  intros Hf.
  assert (E : exists w',
             walk_hive 2 hive_A 0%Z = Some (true, 1%Z, w') /\
             value_at (registry w') [L "A"] (L "p")
             = Some (Value_SZ (L "C:\Users\to\data")))
    by (eexists; split; reflexivity).
  destruct E as (w' & E & Hv). exists w'. split; [|exact Hv].
  exact (walk_hive_fuel_mono 2 fuel hive_A 0%Z _ Hf E).
Qed.

Lemma walk_hive_A_witness :
  2 <= 5 /\
  exists w',
    walk_hive 5 hive_A 0%Z = Some (true, 1%Z, w') /\
    value_at (registry w') [L "A"] (L "p")
    = Some (Value_SZ (L "C:\Users\to\data")).
Proof.
  split; [lia|]. apply (walk_hive_A 5). lia.
Defined.

(** C2, as stated, fails: on a hive whose key [A] refuses writes, the
    walk counts the matching value, the write fails and the walk returns
    [false] with the counter at 1 and no value written. *)
Lemma iter_counts_failed_write :
  ~ (forall fuel (keyHolder : RegKey) count w r count' w',
       iter fuel keyHolder count w = Some (r, count', w') ->
       (count' - count = written (writes w') - written (writes w))%Z).
Proof.
  intros H.
  assert (E : exists root w',
             RegKey_new hive_A_readonly [] (L "") 0%Z = Some root /\
             iter 2 root 0%Z (fresh hive_A_readonly)
             = Some (false, 1%Z, w') /\
             written (writes w') = 0%Z)
    by (do 2 eexists; repeat split; reflexivity).
  destruct E as (root & w' & _ & E & Hw).
  apply H in E. rewrite Hw in E. discriminate E.
Qed.

Lemma iter_counts_attempts_witness :
  exists root w' calls,
    RegKey_new hive_A_readonly [] (L "") 0%Z = Some root /\
    iter 2 root 0%Z (fresh hive_A_readonly) = Some (false, 1%Z, w') /\
    writes w' = calls ++ writes (fresh hive_A_readonly) /\
    (1 - 0 = attempted calls)%Z /\
    Forall (fun c => sv_status c = ERROR_SUCCESS) (tl calls) /\
    (written calls <= attempted calls <= written calls + 1)%Z /\
    (false = true ->
     Forall (fun c => sv_status c = ERROR_SUCCESS) calls /\
     (1 - 0 = written calls)%Z) /\
    (forall c l,
       calls = c :: l -> sv_status c <> ERROR_SUCCESS ->
       false = false /\ (1 - 0 = written calls + 1)%Z).
Proof.
  assert (E : exists root w',
             RegKey_new hive_A_readonly [] (L "") 0%Z = Some root /\
             iter 2 root 0%Z (fresh hive_A_readonly)
             = Some (false, 1%Z, w'))
    by (do 2 eexists; split; reflexivity).
  destruct E as (root & w' & Hroot & E).
  destruct (iter_counts_attempts 2 root 0%Z (fresh hive_A_readonly)
              false 1%Z w' E) as (calls & H).
  exists root, w', calls. split; [exact Hroot|]. split; [exact E|exact H].
Defined.

Lemma iter_counter_monotone_witness :
  exists root w',
    RegKey_new hive_denied [] (L "") 0%Z = Some root /\
    iter 2 root 0%Z (fresh hive_denied) = Some (true, 1%Z, w') /\
    (0 <= 1)%Z.
Proof.
  assert (E : exists root w',
             RegKey_new hive_denied [] (L "") 0%Z = Some root /\
             iter 2 root 0%Z (fresh hive_denied) = Some (true, 1%Z, w'))
    by (do 2 eexists; split; reflexivity).
  destruct E as (root & w' & Hroot & E).
  exists root, w'. split; [exact Hroot|]. split; [exact E|].
  exact (iter_counter_monotone 2 root 0%Z (fresh hive_denied) true 1%Z
           w' E).
Defined.

Lemma RegKey_open_failure_witness :
  length (L "D") < NAME_BUFFER /\
  exists k,
    RegKey_new hive_denied [] (L "D") 1%Z = Some k /\
    getErrorCode k = fst (RegOpenKeyEx hive_denied [] (L "D") 0%Z open_flags)
    /\ (isValid k = true <-> getErrorCode k = ERROR_SUCCESS) /\
    (getErrorCode k <> ERROR_SUCCESS ->
       isValid k = false /\ info k = None /\
       getSubkeyCount k = None /\ getValueCount k = None /\
       getLongestValueData k = None).
Proof.
  assert (Hl : length (L "D") < NAME_BUFFER) by (unfold NAME_BUFFER; simpl; lia).
  split; [exact Hl|].
  exact (RegKey_open_failure hive_denied [] (L "D") 1%Z Hl).
Defined.

Ltac code_differs := cbv; discriminate.

Lemma iter_subkey_open_failure_witness :
  (exists root,
     RegKey_new hive_denied [] (L "") 0%Z = Some root /\
     iter_subkey (iter 1) root 0%Z 0%Z (fresh hive_denied)
     = Some (true, 0%Z, fresh hive_denied) /\
     for_loop 2 0%Z (iter_subkey (iter 1) root) 0%Z (fresh hive_denied)
     = for_loop 1 (0 + 1)%Z (iter_subkey (iter 1) root) 0%Z
         (fresh hive_denied))
  /\ (exists root,
        RegKey_new hive_broken [] (L "") 0%Z = Some root /\
        iter 2 root 0%Z (fresh hive_broken)
        = Some (false, 0%Z, fresh hive_broken))
  /\ (exists root,
        RegKey_new hive_deep [] (L "") 0%Z = Some root /\
        iter 3 root 0%Z (fresh hive_deep)
        = Some (false, 0%Z, fresh hive_deep))
  /\ (exists root w',
        RegKey_new hive_denied [] (L "") 0%Z = Some root /\
        iter 2 root 0%Z (fresh hive_denied) = Some (true, 1%Z, w') /\
        value_at (registry w') [L "A"] (L "p")
        = Some (Value_SZ (L "C:\Users\to\data"))).
Proof.
  split; [|split; [|split]].
  - eexists. split; [reflexivity|].
    apply (proj1 iter_subkey_open_failure (iter 1) _ 0%Z 0%Z
             (fresh hive_denied) (L "D") [L "D"] 1);
      [reflexivity|unfold NAME_BUFFER; simpl; lia|reflexivity].
  - eexists. split; [reflexivity|].
    apply (proj2 (proj2 iter_subkey_open_failure)).
    apply (fatal_child 1 _ (query hive_broken) 0%Z (fresh hive_broken) 0
             0%Z (fresh hive_broken) (L "B") ERROR_INVALID_HANDLE [L "B"]);
      try reflexivity; try code_differs.
    + vm_compute; lia.
    + unfold NAME_BUFFER; simpl; lia.
  - eexists. split; [reflexivity|].
    apply (proj2 (proj2 iter_subkey_open_failure)).
    eapply (fatal_below 2 _ (query hive_deep) 0%Z (fresh hive_deep) 0
              0%Z (fresh hive_deep) (L "A"));
      [reflexivity|vm_compute; lia|reflexivity|reflexivity|reflexivity
      |reflexivity|].
    apply (fatal_child 1 _ (query (plain_key []
             [(L "B", mkKey ERROR_INVALID_HANDLE ERROR_SUCCESS [] [])]))
             0%Z (fresh hive_deep) 0 0%Z (fresh hive_deep) (L "B")
             ERROR_INVALID_HANDLE [L "A"; L "B"]);
      try reflexivity; try code_differs.
    + vm_compute; lia.
    + unfold NAME_BUFFER; simpl; lia.
  - pose (root := @mkRegKey tree_registry 0%Z ERROR_SUCCESS true [] (L "")
                    (Some (query hive_denied))).
    pose proof (proj2 (proj2 (proj2 iter_subkey_open_failure)) 1 root
                  (query hive_denied) 0%Z (fresh hive_denied) 0 0%Z
                  (fresh hive_denied) (L "D") [L "D"] eq_refl) as H.
    specialize (H ltac:(vm_compute; lia) eq_refl eq_refl
                  ltac:(unfold NAME_BUFFER; simpl; lia) eq_refl).
    exists root. eexists. split; [reflexivity|].
    split; [rewrite H; reflexivity|reflexivity].
Defined.


(** * Further properties *)

(** ** [Replace]: one round after the other *)

Lemma substitute_step (n r a t : wstring) :
  n <> [] ->
  (forall j, j < length a -> starts_with n (skipn j (a ++ n ++ t)) = false) ->
  substitute n r 0 (a ++ n ++ t) = a ++ r ++ substitute n r 0 t.
Proof.
  intros Hn Hmin. rewrite substitute_copy by exact Hmin.
  rewrite (substitute_match n r (n ++ t) Hn (starts_with_app n t)).
  now rewrite skipn_app, skipn_all, Nat.sub_diag.
Qed.

Lemma starts_with_nil_r (n : wstring) : n <> [] -> starts_with n [] = false.
Proof. destruct n; [congruence|reflexivity]. Qed.

Lemma starts_with_occurs (v n : wstring) (j : nat) :
  n <> [] -> starts_with n (skipn j v) = true -> occurs_at v n j.
Proof.
  intros Hn H. apply occurs_at_iff. split; [|exact H].
  destruct (Nat.le_gt_cases j (length v)) as [|Hgt]; [assumption|].
  rewrite skipn_all2, starts_with_nil_r in H by (auto; lia). discriminate.
Qed.

Lemma not_occurs_starts_with (v n : wstring) (j : nat) :
  n <> [] -> ~ occurs_at v n j -> starts_with n (skipn j v) = false.
Proof.
  intros Hn H. destruct (starts_with n (skipn j v)) eqn:E; [|reflexivity].
  exfalso. apply H. now apply starts_with_occurs.
Qed.

Lemma occurs_at_app_l (u v n : wstring) (q : nat) :
  occurs_at v n q -> occurs_at (u ++ v) n (length u + q).
Proof.
  intros (a & t & -> & <-). exists (u ++ a), t.
  now rewrite length_app, <- app_assoc.
Qed.

Lemma occurs_at_app_inv (u v n : wstring) (q : nat) :
  occurs_at (u ++ v) n (length u + q) -> occurs_at v n q.
Proof.
  rewrite !occurs_at_iff, length_app, skipn_app.
  rewrite (skipn_all2 u) by lia.
  replace (length u + q - length u) with q by lia. simpl. intuition lia.
Qed.

(** Induction along the scan: a text in which the needle begins nowhere,
    or a needle-free stretch, the needle, and the rest of the text. *)
Lemma scan_ind (n : wstring) (P : wstring -> Prop) :
  n <> [] ->
  (forall h, (forall q, ~ occurs_at h n q) -> P h) ->
  (forall a t,
     (forall q, q < length a -> ~ occurs_at (a ++ n ++ t) n q) ->
     P t -> P (a ++ n ++ t)) ->
  forall h, P h.
Proof.
  intros Hn Hnone Hstep h.
  remember (length h) as m eqn:Hm. revert h Hm.
  induction m as [m IH] using lt_wf_ind. intros h ->.
  destruct (find h n 0) as [p|] eqn:E.
  - destruct (find_Some _ _ _ _ E) as (_ & (a & t & -> & <-) & Hmin).
    apply Hstep.
    + intros q Hq. apply Hmin. lia.
    + apply (IH (length t)); [|reflexivity].
      rewrite !length_app. destruct n; [congruence|]. simpl. lia.
  - apply Hnone. intros q. apply (find_None _ _ _ E). lia.
Qed.

Lemma substitute_round (n r a t : wstring) :
  n <> [] ->
  (forall q, q < length a -> ~ occurs_at (a ++ n ++ t) n q) ->
  substitute n r 0 (a ++ n ++ t) = a ++ r ++ substitute n r 0 t.
Proof.
  intros Hn Hmin. apply substitute_step; [exact Hn|].
  intros j Hj. apply not_occurs_starts_with; auto.
Qed.

Lemma substitute_free (n r h : wstring) :
  n <> [] -> (forall q, ~ occurs_at h n q) -> substitute n r 0 h = h.
Proof.
  intros Hn H. apply substitute_none.
  intros j. apply not_occurs_starts_with; auto.
Qed.

(** X1.  Replacing the needle by itself gives back the haystack. *)
Theorem Replace_same (haystack needle : wstring) :
  needle <> [] -> Replace haystack needle needle = Some haystack.
Proof.
  intros Hn. rewrite Replace_refines by exact Hn. f_equal.
  unfold replace_spec. revert haystack.
  apply (scan_ind needle); [exact Hn| |].
  - intros h H. now apply substitute_free.
  - intros a t Hmin IH. rewrite substitute_round by assumption.
    now rewrite IH.
Qed.

Lemma Replace_same_witness :
  FROM_NAME <> [] /\
  Replace (L "C:\Users\from\Users\from") FROM_NAME FROM_NAME
  = Some (L "C:\Users\from\Users\from").
Proof.
  split; [discriminate|].
  apply (Replace_same (L "C:\Users\from\Users\from") FROM_NAME).
  discriminate.
Defined.

Lemma substitute_length (n r h : wstring) :
  n <> [] ->
  exists k,
    length (substitute n r 0 h) + k * length n = length h + k * length r /\
    k * length n <= length h /\
    (k = 0 <-> occurrences h n = 0).
Proof.
  intros Hn. revert h. apply (scan_ind n); [exact Hn| |].
  - intros h H. exists 0. rewrite substitute_free by assumption.
    repeat split; auto; try lia. intros _. now apply occurrences_zero.
  - intros a t Hmin (k & H1 & H2 & H3). exists (S k).
    rewrite substitute_round by assumption. rewrite !length_app.
    repeat split; try nia.
    intros H. exfalso.
    apply (proj1 (occurrences_zero _ _) H (length a)).
    now exists a, t.
Qed.

(** The counting loop is the loop: it returns the same string. *)
Lemma Replace_loop_counting_erase (n r : wstring) (fuel : nat) :
  forall value pos rounds,
  option_map fst (Replace_loop_counting fuel n r value pos rounds)
  = Replace_loop fuel n r value pos.
Proof.
  induction fuel as [|fuel IH]; intros value pos rounds; [reflexivity|].
  cbn [Replace_loop_counting Replace_loop].
  destruct (find value n pos); [apply IH|reflexivity].
Qed.

(** The rounds of the loop, started after [done] with [rest] still to
    scan: each round takes one needle out of [rest] and puts one
    replacement in. *)
Lemma Replace_loop_counting_length (n r : wstring) (Hn : n <> [])
  (fuel : nat) :
  forall done rest rounds, length rest < fuel ->
  exists k,
    Replace_loop_counting fuel n r (done ++ rest) (length done) rounds
    = Some (done ++ substitute n r 0 rest, rounds + k) /\
    length (substitute n r 0 rest) + k * length n
    = length rest + k * length r /\
    k * length n <= length rest /\
    (k = 0 <-> occurrences rest n = 0).
Proof.
  induction fuel as [|fuel IH]; intros done rest rounds Hf; [lia|].
  cbn [Replace_loop_counting]. rewrite find_app.
  destruct (find_from rest n (length done)) as [p|] eqn:E.
  - destruct (find_from_split _ _ _ _ E) as (a & t & -> & -> & Hmin).
    rewrite (app_assoc done a), <- length_app, replace_app.
    rewrite <- length_app.
    replace ((done ++ a) ++ r ++ t) with (((done ++ a) ++ r) ++ t)
      by now rewrite <- !app_assoc.
    destruct (IH ((done ++ a) ++ r) t (S rounds)) as (k & Hk & Hlen & Hle & _).
    { rewrite !length_app in Hf. destruct n; [congruence|]. simpl in Hf. lia. }
    exists (S k). rewrite Hk, (substitute_step n r a t Hn Hmin).
    rewrite !length_app. repeat split; try nia.
    + do 2 f_equal; [now rewrite <- !app_assoc|lia].
    + intros H. exfalso.
      apply (proj1 (occurrences_zero _ _) H (length a)). now exists a, t.
  - exists 0. pose proof (find_from_None _ _ _ E) as Hnone.
    rewrite substitute_none by exact Hnone. rewrite Nat.add_0_r.
    repeat split; auto; try lia.
    intros _. apply occurrences_zero. intros q Hq.
    apply occurs_at_iff in Hq as [_ Hq]. rewrite Hnone in Hq. discriminate.
Qed.

(** X2.  The length of the result: with [k] the number of rounds the loop
    of [Replace] makes, the result is the haystack less [k] needles plus
    [k] replacements; [k] is 0 exactly when the needle does not occur.  A
    replacement no longer than the needle never lengthens the string. *)
Theorem Replace_length (haystack needle replacement : wstring) :
  needle <> [] ->
  exists v k,
    Replace haystack needle replacement = Some v /\
    Replace_rounds haystack needle replacement = Some (v, k) /\
    length v + k * length needle
    = length haystack + k * length replacement /\
    k * length needle <= length haystack /\
    (k = 0 <-> occurrences haystack needle = 0) /\
    (length replacement <= length needle -> length v <= length haystack).
Proof.
  intros Hn.
  destruct (Replace_loop_counting_length needle replacement Hn
              (S (length haystack)) [] haystack 0 ltac:(lia))
    as (k & Hk & H1 & H2 & H3).
  exists (replace_spec haystack needle replacement), k.
  split; [now apply Replace_refines|]. split; [exact Hk|].
  unfold replace_spec. repeat split; auto; try tauto. nia.
Qed.

Lemma Replace_length_witness :
  exists v,
    Replace (L "C:\Users\from\Users\from") FROM_NAME TO_NAME = Some v /\
    Replace_rounds (L "C:\Users\from\Users\from") FROM_NAME TO_NAME
    = Some (v, 2) /\
    length v + 2 * length FROM_NAME
    = length (L "C:\Users\from\Users\from") + 2 * length TO_NAME.
Proof.
  destruct (Replace_length (L "C:\Users\from\Users\from") FROM_NAME TO_NAME
              ltac:(discriminate)) as (v & k & Hv & Hk & Hlen & _).
  exists v. split; [exact Hv|].
  assert (E : Replace_rounds (L "C:\Users\from\Users\from") FROM_NAME
                TO_NAME
              = Some (L "C:\Users\to\Users\to", 2)) by reflexivity.
  rewrite E in Hk. injection Hk as <- <-.
  split; [exact E|exact Hlen].
Defined.

Lemma occurs_find (h n : wstring) (q : nat) :
  occurs_at h n q -> exists p, find h n 0 = Some p.
Proof.
  intros H. destruct (find h n 0) as [p|] eqn:E; [now exists p|].
  exfalso. apply (find_None _ _ _ E q); [lia|exact H].
Qed.

(** X3.  Where the needle occurs and the replacement is another string,
    [Replace] returns a string other than the haystack. *)
Theorem Replace_changes (haystack needle replacement : wstring) :
  needle <> [] -> replacement <> needle ->
  occurrences haystack needle <> 0 ->
  exists v, Replace haystack needle replacement = Some v /\ v <> haystack.
Proof.
  intros Hn Hr Hocc.
  exists (replace_spec haystack needle replacement).
  split; [now apply Replace_refines|]. unfold replace_spec. intros Hv.
  destruct (substitute_length needle replacement haystack Hn)
    as (k & Hlen & _ & Hk).
  rewrite Hv in Hlen.
  assert (Hk0 : k <> 0) by tauto.
  assert (Hl : length replacement = length needle) by nia.
  assert (Hex : exists q, occurs_at haystack needle q).
  { destruct (find haystack needle 0) as [p|] eqn:E.
    - exists p. apply (find_Some _ _ _ _ E).
    - exfalso. apply Hocc. apply occurrences_zero.
      intros q. apply (find_None _ _ _ E). lia. }
  destruct Hex as [q Hq]. destruct (occurs_find _ _ _ Hq) as [p E].
  destruct (find_Some _ _ _ _ E) as (_ & (a & t & -> & <-) & Hmin).
  rewrite substitute_round in Hv
    by (auto; intros q' Hq'; apply Hmin; lia).
  apply app_inv_head in Hv.
  apply (f_equal (firstn (length needle))) in Hv.
  rewrite <- Hl in Hv at 1.
  rewrite !firstn_app, !firstn_all, !Nat.sub_diag, !firstn_O, !app_nil_r
    in Hv.
  congruence.
Qed.

Lemma Replace_changes_witness :
  exists v,
    Replace (L "C:\Users\from\data") FROM_NAME TO_NAME = Some v /\
    v <> L "C:\Users\from\data".
Proof.
  apply (Replace_changes (L "C:\Users\from\data") FROM_NAME TO_NAME);
    discriminate.
Defined.

(** X4.  [Replace] goes through a concatenation: when every occurrence of
    the needle that begins in the first part also ends in it, the result
    for the whole is the result for the first part followed by the result
    for the second. *)
Theorem Replace_app (a b needle replacement : wstring) :
  needle <> [] ->
  (forall q, q < length a -> occurs_at (a ++ b) needle q ->
             q + length needle <= length a) ->
  exists va vb,
    Replace a needle replacement = Some va /\
    Replace b needle replacement = Some vb /\
    Replace (a ++ b) needle replacement = Some (va ++ vb).
Proof.
  intros Hn Hin.
  exists (replace_spec a needle replacement),
         (replace_spec b needle replacement).
  rewrite !Replace_refines by exact Hn. repeat split. f_equal.
  unfold replace_spec. revert a Hin.
  apply (scan_ind needle
           (fun a =>
              (forall q, q < length a -> occurs_at (a ++ b) needle q ->
                         q + length needle <= length a) ->
              substitute needle replacement 0 (a ++ b)
              = substitute needle replacement 0 a
                ++ substitute needle replacement 0 b)); [exact Hn| |].
  - intros a Hfree Hin. rewrite (substitute_free _ _ a) by assumption.
    apply substitute_copy. intros j Hj.
    apply not_occurs_starts_with; [exact Hn|]. intros Hocc.
    apply (Hfree j).
    rewrite <- (app_nil_r a).
    exact (occurs_at_within a b [] needle j (Hin j Hj Hocc) Hocc).
  - intros a1 t1 Hmin IH Hin.
    rewrite <- !app_assoc.
    rewrite (substitute_round needle replacement a1 (t1 ++ b) Hn).
    + rewrite (substitute_round needle replacement a1 t1 Hn Hmin).
      rewrite <- !app_assoc. do 2 f_equal. apply IH.
      intros q Hq Hocc.
      apply (occurs_at_app_l (a1 ++ needle)) in Hocc.
      rewrite <- !app_assoc in Hocc.
      specialize (Hin (length (a1 ++ needle) + q)).
      rewrite <- !app_assoc in Hin. rewrite !length_app in *.
      specialize (Hin ltac:(lia) Hocc). lia.
    + intros q Hq Hocc. apply (Hmin q Hq).
      rewrite (app_assoc a1 needle) in Hocc |- *.
      apply (occurs_at_within (a1 ++ needle) (t1 ++ b) t1 needle q);
        [rewrite length_app; lia|exact Hocc].
Qed.

Lemma Replace_app_witness :
  exists va vb,
    Replace (L "C:\Users\from") FROM_NAME TO_NAME = Some va /\
    Replace (L "\Users\fromage") FROM_NAME TO_NAME = Some vb /\
    Replace (L "C:\Users\from" ++ L "\Users\fromage") FROM_NAME TO_NAME
    = Some (va ++ vb).
Proof.
  apply (Replace_app (L "C:\Users\from") (L "\Users\fromage") FROM_NAME
           TO_NAME); [discriminate|].
  intros q Hq Hocc. apply occurs_at_iff in Hocc as [_ Hocc].
  change (length (L "C:\Users\from")) with 13 in *.
  change (length FROM_NAME) with 10.
  do 14 (destruct q as [|q]; [try lia; try discriminate Hocc|]). lia.
Defined.

(** X5.  What surrounds a single occurrence is kept: when the needle
    occurs in [a ++ needle ++ b] at the one place shown, [Replace] returns
    [a ++ replacement ++ b]. *)
Theorem Replace_single (a b needle replacement : wstring) :
  needle <> [] ->
  (forall q, occurs_at (a ++ needle ++ b) needle q -> q = length a) ->
  Replace (a ++ needle ++ b) needle replacement
  = Some (a ++ replacement ++ b).
Proof.
  intros Hn Hone. rewrite Replace_refines by exact Hn. f_equal.
  unfold replace_spec. rewrite substitute_round.
  - rewrite (substitute_free _ _ b); [reflexivity|exact Hn|].
    intros q Hocc. apply (occurs_at_app_l (a ++ needle)) in Hocc.
    rewrite <- app_assoc in Hocc. apply Hone in Hocc.
    rewrite length_app in Hocc. destruct needle; [congruence|].
    simpl in Hocc. lia.
  - exact Hn.
  - intros q Hq Hocc. apply Hone in Hocc. lia.
Qed.

Lemma Replace_single_witness :
  Replace (L "A" ++ L "x" ++ L "B") (L "x") (L "y")
  = Some (L "A" ++ L "y" ++ L "B").
Proof.
  apply (Replace_single (L "A") (L "B") (L "x") (L "y")); [discriminate|].
  intros q Hocc. apply occurs_at_iff in Hocc as [_ Hocc].
  do 4 (destruct q as [|q]; [try reflexivity; try discriminate Hocc|]).
  discriminate Hocc.
Defined.

(** ** The walker: what a round does to a value *)

Lemma c_str_literal : c_str FROM_NAME = FROM_NAME.
Proof. reflexivity. Qed.

Lemma wcsstr_occurrences (data : list wchar_t) :
  wcsstr data FROM_NAME = negb (Nat.eqb (occurrences (c_str data) FROM_NAME) 0).
Proof.
  unfold wcsstr. rewrite c_str_literal.
  assert (E : find (c_str data) FROM_NAME 0
              = find_from (c_str data) FROM_NAME 0) by reflexivity.
  rewrite <- E.
  destruct (find (c_str data) FROM_NAME 0) as [p|] eqn:F.
  - destruct (find_Some _ _ _ _ F) as (_ & Hocc & _).
    destruct (Nat.eqb_spec (occurrences (c_str data) FROM_NAME) 0) as [Z|];
      [|reflexivity].
    exfalso. exact (proj1 (occurrences_zero _ _) Z p Hocc).
  - replace (occurrences (c_str data) FROM_NAME) with 0; [reflexivity|].
    symmetry. apply occurrences_zero. intros q.
    apply (find_None _ _ _ F). lia.
Qed.

Lemma FROM_NAME_nonempty : FROM_NAME <> [].
Proof. discriminate. Qed.

Section WalkerExtras.

Context {R : Registry}.

(** X6.  A value that was fetched as a string is rewritten exactly when
    its string contains the target.  Without an occurrence the round
    leaves the counter and the world as they were.  With one, the counter
    is incremented and [RegSetValueEx] is called once, on the same key and
    value name, with the one-pass substitution of the string, which is
    free of the target, differs from the string read and is not longer;
    the round yields whether that call succeeded. *)
Theorem iter_value_rewrites_iff_match (keyHolder : RegKey) (inf : KeyInfo)
  (i : DWORD) (count : Z) (w : World) (valueName : wstring)
  (data : list wchar_t) :
  info keyHolder = Some inf ->
  RegEnumValue (registry w) (getKey keyHolder) i MAX_VALUE_NAME
  = (ERROR_SUCCESS, valueName) ->
  RegGetValue (registry w) (getKey keyHolder) valueName RRF_RT_REG_SZ
    (wrap32 (longestValueData inf * 2 + 2))
  = (ERROR_SUCCESS, data) ->
  (occurrences (c_str data) FROM_NAME = 0 ->
   iter_value keyHolder i count w = Some (true, count, w))
  /\ (occurrences (c_str data) FROM_NAME <> 0 -> (count < INT_MAX)%Z ->
      let replaced := replace_spec (c_str data) FROM_NAME TO_NAME in
      let res :=
        RegSetValueEx (registry w) (getKey keyHolder) valueName REG_SZ
          replaced
          (wrap32 ((wrap32 (Z.of_nat (length replaced)) + 1) * sizeof_WCHAR))
      in
      iter_value keyHolder i count w
      = Some (Z.eqb (fst res) ERROR_SUCCESS, (count + 1)%Z,
              mkWorld (snd res)
                (mkSetValueCall (getKey keyHolder) valueName replaced
                   (fst res) :: writes w))
      /\ occurrences replaced FROM_NAME = 0
      /\ replaced <> c_str data
      /\ length replaced <= length (c_str data)).
Proof.
  intros Hi He Hg. split.
  - intros Hocc. unfold iter_value, getLongestValueData.
    rewrite He, Hi. cbn [negb Z.eqb option_map]. rewrite Hg.
    cbn [negb Z.eqb andb ERROR_SUCCESS].
    rewrite wcsstr_occurrences, Hocc. reflexivity.
  - intros Hocc Hc. cbv zeta. split; [|split; [|split]].
    + unfold iter_value, getLongestValueData.
      rewrite He, Hi. cbn [negb Z.eqb option_map]. rewrite Hg.
      cbn [negb Z.eqb andb ERROR_SUCCESS].
      rewrite wcsstr_occurrences.
      replace (Nat.eqb (occurrences (c_str data) FROM_NAME) 0) with false
        by (symmetry; now apply Nat.eqb_neq).
      cbn [negb]. unfold increment.
      replace (count <? INT_MAX)%Z with true
        by (symmetry; now apply Z.ltb_lt).
      rewrite (Replace_refines _ _ TO_NAME FROM_NAME_nonempty).
      destruct (RegSetValueEx _ _ _ _ _ _) as [setRes st'].
      cbn [fst snd]. destruct (Z.eqb setRes ERROR_SUCCESS); reflexivity.
    + apply occurrences_zero.
      apply (Replace_loop_clean FROM_NAME TO_NAME
               (S (length (c_str data))) FROM_NAME_nonempty eq_refl []
               (c_str data)); [simpl; intros; lia|].
      exact (Replace_refines _ _ TO_NAME FROM_NAME_nonempty).
    + unfold replace_spec. intros Hsame.
      destruct (substitute_length FROM_NAME TO_NAME (c_str data)
                  FROM_NAME_nonempty) as (k & Hlen & _ & Hk).
      rewrite Hsame in Hlen.
      change (length FROM_NAME) with 10 in Hlen.
      change (length TO_NAME) with 8 in Hlen.
      assert (k = 0) by lia. tauto.
    + unfold replace_spec.
      destruct (substitute_length FROM_NAME TO_NAME (c_str data)
                  FROM_NAME_nonempty) as (k & Hlen & _ & _).
      change (length FROM_NAME) with 10 in Hlen.
      change (length TO_NAME) with 8 in Hlen. lia.
Qed.

(** ** The walker: the world across a walk *)

Lemma tidy_same (r : bool) (count : Z) (w : World) :
  tidy count w (r, count, w).
Proof. exists []. repeat split; auto. Qed.

Lemma tidy_then (count : Z) (w : World) (count1 : Z) (w1 : World)
  (res : bool * Z * World) :
  tidy count w (true, count1, w1) -> tidy count1 w1 res -> tidy count w res.
Proof.
  destruct res as [[r count2] w2].
  intros (l1 & Hw1 & Hf1 & Hr1) (l2 & Hw2 & Hf2 & Hr2).
  exists (l2 ++ l1). rewrite Hw2, Hw1, app_assoc. repeat split.
  - apply Forall_app; auto.
  - intros E. apply app_eq_nil in E as [-> ->].
    rewrite Hr2, Hr1; auto.
Qed.

Lemma iter_value_tidy (keyHolder : RegKey) (i : DWORD) (count : Z)
  (w : World) (res : bool * Z * World) :
  iter_value keyHolder i count w = Some res -> tidy count w res.
Proof.
  unfold iter_value.
  destruct (RegEnumValue _ _ _ _) as [errValue valueName].
  destruct (negb _); [intros [= <-]; apply tidy_same|].
  destruct (getLongestValueData keyHolder) as [longest|]; [|discriminate].
  destruct (RegGetValue _ _ _ _ _) as [errValue' data].
  destruct (_ && _); [intros [= <-]; apply tidy_same|].
  destruct (Z.eqb errValue' ERROR_SUCCESS);
    [|intros [= <-]; apply tidy_same].
  destruct (wcsstr data FROM_NAME); [|intros [= <-]; apply tidy_same].
  destruct (increment count) as [count1|]; [|discriminate].
  destruct (Replace _ _ _) as [replaced|] eqn:E; [|discriminate].
  assert (Hclean : occurrences replaced FROM_NAME = 0).
  { apply occurrences_zero.
    apply (Replace_loop_clean FROM_NAME TO_NAME (S (length (c_str data)))
             FROM_NAME_nonempty eq_refl [] (c_str data));
      [simpl; intros; lia|exact E]. }
  destruct (RegSetValueEx _ _ _ _ _ _) as [setRes st'].
  destruct (negb _); intros [= <-];
    (eexists [_]; cbn [writes app registry]; repeat split;
     [repeat constructor; exact Hclean|discriminate]).
Qed.

Lemma iter_tidy (fuel : nat) keyHolder count w res :
  iter fuel keyHolder count w = Some res -> tidy count w res.
Proof.
  apply (iter_keeps tidy (tidy_same true) (tidy_same false) tidy_then
           iter_value_tidy).
Qed.

(** X7.  Every string a walk hands to [RegSetValueEx] is free of the
    target "Users\from". *)
Theorem iter_writes_clean (fuel : nat) (keyHolder : RegKey) (count : Z)
  (w : World) (r : bool) (count' : Z) (w' : World) :
  iter fuel keyHolder count w = Some (r, count', w') ->
  exists calls,
    writes w' = calls ++ writes w /\
    Forall (fun c => occurrences (sv_data c) FROM_NAME = 0) calls.
Proof.
  intros H. apply iter_tidy in H. destruct H as (calls & Hw & Hf & _).
  now exists calls.
Qed.

(** X8.  A walk that returns with the counter where it was has changed
    nothing: the registry is as before and no call of [RegSetValueEx] was
    made. *)
Theorem iter_unchanged_without_match (fuel : nat) (keyHolder : RegKey)
  (count : Z) (w : World) (r : bool) (w' : World) :
  iter fuel keyHolder count w = Some (r, count, w') -> w' = w.
Proof.
  intros H. pose proof (iter_accounted _ _ _ _ _ H) as (l1 & Hw1 & Hc & _).
  apply iter_tidy in H. destruct H as (l2 & Hw2 & _ & Hreg).
  assert (l1 = []) as ->
    by (destruct l1; [reflexivity|unfold attempted in Hc; simpl in Hc; lia]).
  assert (l2 = []) as ->.
  { rewrite Hw1 in Hw2. apply (f_equal (@length _)) in Hw2.
    rewrite !length_app in Hw2. destruct l2; [reflexivity|].
    simpl in Hw2. lia. }
  specialize (Hreg eq_refl). destruct w, w'. simpl in *. now subst.
Qed.

End WalkerExtras.

(** ** The walker: enumeration failures and subkeys that are not found *)

Section WalkerFailures.

Context {R : Registry}.

(** X9.  A failed enumeration ends the walk.  When [RegEnumKeyEx] fails
    at a subkey index, [iter] returns [false] with the counter and the
    world of that moment, before any value of the key is looked at; when
    [RegEnumValue] fails at a value index, [iter] returns [false]
    likewise. *)
Theorem iter_enumeration_failure :
  (forall fuel keyHolder inf count w k count1 w1,
     info keyHolder = Some inf ->
     k < Z.to_nat (subkeyCount inf) ->
     for_loop k 0%Z (iter_subkey (iter fuel) keyHolder) count w
     = Some (true, count1, w1) ->
     fst (RegEnumKeyEx (registry w1) (getKey keyHolder) (Z.of_nat k)
            MAX_KEY_LENGTH) <> ERROR_SUCCESS ->
     iter (S fuel) keyHolder count w = Some (false, count1, w1))
  /\ (forall fuel keyHolder inf count w count1 w1 k count2 w2,
        info keyHolder = Some inf ->
        for_loop (Z.to_nat (subkeyCount inf)) 0%Z
          (iter_subkey (iter fuel) keyHolder) count w
        = Some (true, count1, w1) ->
        k < Z.to_nat (valueCount inf) ->
        for_loop k 0%Z (iter_value keyHolder) count1 w1
        = Some (true, count2, w2) ->
        fst (RegEnumValue (registry w2) (getKey keyHolder) (Z.of_nat k)
               MAX_VALUE_NAME) <> ERROR_SUCCESS ->
        iter (S fuel) keyHolder count w = Some (false, count2, w2)).
Proof.
  split.
  - intros fuel keyHolder inf count w k count1 w1 Hi Hk Hpre He.
    apply (iter_abort_in_subkeys fuel keyHolder inf count w k count1 w1
             count1 w1 Hi Hk Hpre).
    unfold iter_subkey.
    destruct (RegEnumKeyEx _ _ _ _) as [errValue keyName].
    cbn [fst] in He. apply Z.eqb_neq in He. now rewrite He.
  - intros fuel keyHolder inf count w count1 w1 k count2 w2 Hi Hsub Hk Hpre
      He.
    cbn [iter]. unfold getSubkeyCount, getValueCount. rewrite Hi.
    cbn [option_map]. rewrite Hsub.
    apply (for_loop_abort_at _ _ _ _ _ _ _ _ _ Hk Hpre).
    unfold iter_value.
    destruct (RegEnumValue _ _ _ _) as [errValue valueName].
    cbn [fst] in He. apply Z.eqb_neq in He. now rewrite He.
Qed.

(** X10.  A subkey that was enumerated and is then not found when opened
    is passed over, like a denied one: the round yields [true] with the
    counter and the world as they were, whatever the recursive call would
    do, and the loop goes on with the next index. *)
Theorem iter_subkey_not_found (rec : RegKey -> Z -> World -> walk)
  (keyHolder : RegKey) (i : DWORD) (count : Z) (w : World)
  (keyName : wstring) (hk : HKEY) (n : nat) :
  RegEnumKeyEx (registry w) (getKey keyHolder) i MAX_KEY_LENGTH
  = (ERROR_SUCCESS, keyName) ->
  length keyName < NAME_BUFFER ->
  RegOpenKeyEx (registry w) (getKey keyHolder) keyName 0%Z open_flags
  = (ERROR_FILE_NOT_FOUND, hk) ->
  iter_subkey rec keyHolder i count w = Some (true, count, w) /\
  for_loop (S n) i (iter_subkey rec keyHolder) count w
  = for_loop n (i + 1)%Z (iter_subkey rec keyHolder) count w.
Proof.
  intros He Hl Ho.
  assert (E : iter_subkey rec keyHolder i count w = Some (true, count, w)).
  { unfold iter_subkey. rewrite He. cbn [negb Z.eqb].
    rewrite (RegKey_new_open _ _ _ _ _ _ Hl Ho). reflexivity. }
  split; [exact E|]. cbn [for_loop]. now rewrite E.
Qed.

End WalkerFailures.

(** ** The lifetime of the handles *)

Section HandleProperties.

Context {R : Registry}.

Lemma for_loop_h_erase (n : nat) (bodyh : DWORD -> Z -> World -> hwalk)
  (body : DWORD -> Z -> World -> walk) :
  (forall i count w, option_map fst (bodyh i count w) = body i count w) ->
  forall i count w,
  option_map fst (for_loop_h n i bodyh count w) = for_loop n i body count w.
Proof.
  intros Hb. induction n as [|n IH]; intros i count w; [reflexivity|].
  cbn [for_loop_h for_loop]. rewrite <- Hb.
  destruct (bodyh i count w) as [[[[[] c1] w1] ev]|]; cbn; try reflexivity.
  rewrite <- IH.
  destruct (for_loop_h n (i + 1)%Z bodyh c1 w1) as [[[[b c2] w2] ev']|];
    reflexivity.
Qed.

Lemma iter_subkey_h_erase (rech : RegKey -> Z -> World -> hwalk)
  (rec : RegKey -> Z -> World -> walk) (keyHolder : RegKey) :
  (forall k count w, option_map fst (rech k count w) = rec k count w) ->
  forall i count w,
  option_map fst (iter_subkey_h rech keyHolder i count w)
  = iter_subkey rec keyHolder i count w.
Proof.
  intros Hrec i count w. unfold iter_subkey_h, iter_subkey.
  destruct (RegEnumKeyEx _ _ _ _) as [errValue keyName].
  destruct (negb _); [reflexivity|].
  destruct (RegKey_new _ _ _ _) as [subKey|]; [|reflexivity].
  destruct (_ && _); [reflexivity|].
  destruct (isValid subKey); [|reflexivity].
  rewrite <- Hrec.
  destruct (rech subKey count w) as [[[[b c1] w1] ev]|]; reflexivity.
Qed.

Lemma iter_value_h_erase (keyHolder : RegKey) (i : DWORD) (count : Z)
  (w : World) :
  option_map fst (iter_value_h keyHolder i count w)
  = iter_value keyHolder i count w.
Proof.
  unfold iter_value_h. destruct (iter_value keyHolder i count w); reflexivity.
Qed.

(** The walk with events is the walk. *)
Lemma iter_h_erase (fuel : nat) :
  forall keyHolder count w,
  option_map fst (iter_h fuel keyHolder count w)
  = iter fuel keyHolder count w.
Proof.
  induction fuel as [|fuel IH]; intros keyHolder count w; [reflexivity|].
  cbn [iter_h iter].
  destruct (getSubkeyCount keyHolder) as [subkeys|]; [|reflexivity].
  destruct (getValueCount keyHolder) as [values|]; [|reflexivity].
  rewrite <- (for_loop_h_erase _ _ _
                (iter_subkey_h_erase _ _ keyHolder IH)).
  destruct (for_loop_h _ _ (iter_subkey_h _ _) count w)
    as [[[[[] c1] w1] ev]|]; cbn; try reflexivity.
  rewrite <- (for_loop_h_erase _ _ _ (iter_value_h_erase keyHolder)).
  destruct (for_loop_h _ _ (iter_value_h _) c1 w1) as [[[[b c2] w2] ev']|];
    reflexivity.
Qed.

Lemma walk_hives_h_erase (fuel : nat) (roots : list HKEY) :
  forall count w,
  option_map fst (walk_hives_h fuel roots count w)
  = walk_hives fuel roots count w.
Proof.
  induction roots as [|root roots IH]; intros count w; [reflexivity|].
  cbn [walk_hives_h walk_hives].
  destruct (RegKey_new _ _ _ _) as [hive|]; [|reflexivity].
  destruct (negb _); [reflexivity|].
  rewrite <- iter_h_erase.
  destruct (iter_h fuel hive count w) as [[[[b c1] w1] ev]|];
    [|reflexivity].
  cbn [option_map fst]. rewrite <- IH.
  destruct (walk_hives_h fuel roots c1 w1) as [[[[s c2] w2] ev']|];
    reflexivity.
Qed.

Lemma balanced_app (a b : list HandleEvent) :
  balanced a -> balanced b -> balanced (a ++ b).
Proof.
  intros Ha Hb. induction Ha as [|h a1 a2 Ha1 _ _ IH2]; [exact Hb|].
  cbn [app]. rewrite <- app_assoc. cbn [app].
  now apply balanced_open.
Qed.

Lemma peak_ge (ev : list HandleEvent) : forall o, o <= peak o ev.
Proof. destruct ev as [|[h|h] ev]; intros o; simpl; lia. Qed.

Lemma peak_app (a : list HandleEvent) :
  balanced a ->
  forall b o, peak o (a ++ b) = Nat.max (peak o a) (peak o b).
Proof.
  induction 1 as [|h a1 a2 Ha1 IH1 _ IH2]; intros b o.
  - simpl. pose proof (peak_ge b o). lia.
  - cbn [app peak]. rewrite <- app_assoc. rewrite !IH1. cbn [app peak].
    cbn [Nat.pred]. rewrite IH2. pose proof (peak_ge b o). lia.
Qed.

(** Events that are balanced and never have [d] handles open beyond
    those open at the start. *)
Lemma bracket_below (h : HKEY) (ev : list HandleEvent) (d : nat) :
  balanced ev /\ (forall o, peak o ev < o + d) ->
  balanced ([Opened h] ++ ev ++ [Closed h]) /\
  (forall o, peak o ([Opened h] ++ ev ++ [Closed h]) < o + S d).
Proof.
  intros [Hb Hp]. split.
  - cbn [app]. apply balanced_open; [exact Hb|constructor].
  - intros o. cbn [app peak]. rewrite peak_app by exact Hb.
    cbn [peak Nat.pred]. specialize (Hp (S o)).
    pose proof (peak_ge ev (S o)). lia.
Qed.

Lemma for_loop_h_below (n : nat) (body : DWORD -> Z -> World -> hwalk)
  (d : nat) :
  (forall i count w res ev,
     body i count w = Some (res, ev) ->
     balanced ev /\ forall o, peak o ev < o + S d) ->
  forall i count w res ev,
  for_loop_h n i body count w = Some (res, ev) ->
  balanced ev /\ forall o, peak o ev < o + S d.
Proof.
  intros Hb. induction n as [|n IH]; intros i count w res ev H.
  - injection H as <- <-. split; [constructor|]. intros o. simpl. lia.
  - cbn [for_loop_h] in H.
    destruct (body i count w) as [[[[b c1] w1] ev1]|] eqn:E; [|discriminate].
    destruct (Hb _ _ _ _ _ E) as [Hb1 Hp1]. destruct b.
    + destruct (for_loop_h n (i + 1)%Z body c1 w1)
        as [[[[b c2] w2] ev2]|] eqn:E2; [|discriminate].
      injection H as <- <-. destruct (IH _ _ _ _ _ E2) as [Hb2 Hp2].
      split; [now apply balanced_app|].
      intros o. rewrite peak_app by exact Hb1.
      specialize (Hp1 o). specialize (Hp2 o). lia.
    + injection H as <- <-. now split.
Qed.

Lemma iter_subkey_h_below (rec : RegKey -> Z -> World -> hwalk)
  (keyHolder : RegKey) (d : nat) :
  (forall k count w res ev,
     rec k count w = Some (res, ev) ->
     balanced ev /\ forall o, peak o ev < o + d) ->
  forall i count w res ev,
  iter_subkey_h rec keyHolder i count w = Some (res, ev) ->
  balanced ev /\ forall o, peak o ev < o + S d.
Proof.
  assert (Hnil : balanced [] /\ forall o, peak o [] < o + S d)
    by (split; [constructor|intros o; simpl; lia]).
  intros Hrec i count w res ev. unfold iter_subkey_h, constructed, destroyed.
  destruct (RegEnumKeyEx _ _ _ _) as [errValue keyName].
  destruct (negb _); [intros [= <- <-]; exact Hnil|].
  destruct (RegKey_new _ _ _ _) as [subKey|]; [|discriminate].
  destruct (isValid subKey) eqn:Hv; cbn [negb andb].
  - destruct (rec subKey count w) as [[[[b c1] w1] ev1]|] eqn:E;
      [|discriminate].
    intros [= <- <-]. apply bracket_below. eapply Hrec; eauto.
  - destruct (_ && _); intros [= <- <-]; exact Hnil.
Qed.

Lemma iter_h_below (fuel : nat) :
  forall keyHolder count w res ev,
  iter_h fuel keyHolder count w = Some (res, ev) ->
  balanced ev /\ forall o, peak o ev < o + fuel.
Proof.
  induction fuel as [|fuel IH]; intros keyHolder count w res ev H;
    [discriminate|].
  cbn [iter_h] in H.
  destruct (getSubkeyCount keyHolder) as [subkeys|]; [|discriminate].
  destruct (getValueCount keyHolder) as [values|]; [|discriminate].
  destruct (for_loop_h _ _ (iter_subkey_h _ _) count w)
    as [[[[b c1] w1] ev1]|] eqn:E; [|discriminate].
  destruct (for_loop_h_below _ _ fuel
              (iter_subkey_h_below _ keyHolder fuel IH) _ _ _ _ _ E)
    as [Hb1 Hp1].
  destruct b; [|injection H as <- <-; now split].
  destruct (for_loop_h _ _ (iter_value_h _) c1 w1)
    as [[[[b c2] w2] ev2]|] eqn:E2; [|discriminate].
  injection H as <- <-.
  assert (Hv : balanced ev2 /\ forall o, peak o ev2 < o + S fuel).
  { apply (for_loop_h_below _ (iter_value_h keyHolder) fuel) in E2;
      [exact E2|].
    intros i c0 w0 res0 ev0. unfold iter_value_h.
    destruct (iter_value keyHolder i c0 w0); [|discriminate].
    intros [= <- <-]. split; [constructor|]. intros o. simpl. lia. }
  destruct Hv as [Hb2 Hp2]. split; [now apply balanced_app|].
  intros o. rewrite peak_app by exact Hb1.
  specialize (Hp1 o). specialize (Hp2 o). lia.
Qed.

Lemma iter_h_exists (fuel : nat) keyHolder count w res :
  iter fuel keyHolder count w = Some res ->
  exists ev, iter_h fuel keyHolder count w = Some (res, ev).
Proof.
  intros H. rewrite <- iter_h_erase in H.
  destruct (iter_h fuel keyHolder count w) as [[res' ev]|]; [|discriminate].
  injection H as <-. now exists ev.
Qed.

(** X11.  Every walk that returns, with [true] or with [false], has
    closed every subkey handle it opened, the latest opened first. *)
Theorem iter_closes_handles (fuel : nat) (keyHolder : RegKey) (count : Z)
  (w : World) (res : bool * Z * World) :
  iter fuel keyHolder count w = Some res ->
  exists ev, iter_h fuel keyHolder count w = Some (res, ev) /\ balanced ev.
Proof.
  intros H. destruct (iter_h_exists _ _ _ _ _ H) as [ev E].
  exists ev. split; [exact E|]. eapply iter_h_below; eauto.
Qed.

(** X12.  A walk that returns within [fuel] levels of recursion never has
    [fuel] subkey handles open at once: one handle per level below the
    key it was called on, not one per sibling. *)
Theorem iter_open_handles_bound (fuel : nat) (keyHolder : RegKey)
  (count : Z) (w : World) (res : bool * Z * World) :
  iter fuel keyHolder count w = Some res ->
  exists ev,
    iter_h fuel keyHolder count w = Some (res, ev) /\ peak 0 ev < fuel.
Proof.
  intros H. destruct (iter_h_exists _ _ _ _ _ H) as [ev E].
  exists ev. split; [exact E|].
  exact (proj2 (iter_h_below _ _ _ _ _ _ E) 0).
Qed.

Lemma walk_hives_h_below (fuel : nat) (roots : list HKEY) :
  forall count w res ev,
  walk_hives_h fuel roots count w = Some (res, ev) ->
  balanced ev /\
  (forall o, peak o ev <= o + length roots + (fuel - 1)) /\
  (ev = [] \/ 1 <= fuel).
Proof.
  induction roots as [|root roots IH]; intros count w res ev H.
  - injection H as <- <-. split; [constructor|]. split; [|now left].
    intros o. simpl. lia.
  - cbn [walk_hives_h] in H. unfold constructed, destroyed in H.
    destruct (RegKey_new _ _ _ _) as [hive|]; [|discriminate].
    destruct (isValid hive) eqn:Hv; cbn [negb] in H.
    + destruct (iter_h fuel hive count w) as [[[[b c1] w1] ev1]|] eqn:E;
        [|discriminate].
      destruct (walk_hives_h fuel roots c1 w1) as [[[[s c2] w2] ev2]|] eqn:E2;
        [|discriminate].
      injection H as <- <-.
      destruct (iter_h_below _ _ _ _ _ _ E) as [Hb1 Hp1].
      destruct (IH _ _ _ _ E2) as (Hb2 & Hp2 & _).
      assert (Hb : balanced (ev1 ++ ev2)) by now apply balanced_app.
      pose proof (peak_ge ev1 0) as Hge. pose proof (Hp1 0) as Hp0.
      split; [|split; [|right; lia]].
      * cbn [app]. apply balanced_open; [exact Hb|constructor].
      * intros o. cbn [app peak length]. rewrite peak_app by exact Hb.
        rewrite peak_app by exact Hb1. cbn [peak Nat.pred].
        specialize (Hp1 (S o)). specialize (Hp2 (S o)). lia.
    + injection H as <- <-. split; [constructor|]. split; [|now left].
      intros o. simpl. lia.
Qed.

(** X13.  When [main] returns, with 0 or with -1, every handle opened in
    the program has been closed, the roots included; and with walks that
    stay within [fuel] levels, at most [fuel + 4] handles were open at
    once (the five roots stay open until [main] returns). *)
Theorem main_closes_handles (fuel : nat) (st : store)
  (HKEY_CLASSES_ROOT HKEY_CURRENT_USER HKEY_LOCAL_MACHINE HKEY_USERS
     HKEY_CURRENT_CONFIG : HKEY) (res : Z * Z * World) :
  main fuel st HKEY_CLASSES_ROOT HKEY_CURRENT_USER HKEY_LOCAL_MACHINE
    HKEY_USERS HKEY_CURRENT_CONFIG = Some res ->
  exists ev,
    walk_hives_h fuel
      [HKEY_CLASSES_ROOT; HKEY_CURRENT_USER; HKEY_LOCAL_MACHINE; HKEY_USERS;
       HKEY_CURRENT_CONFIG] 0%Z (mkWorld st [])
    = Some (res, ev) /\
    balanced ev /\ peak 0 ev <= fuel + 4.
Proof.
  unfold main. intros H. rewrite <- walk_hives_h_erase in H.
  destruct (walk_hives_h _ _ _ _) as [[res' ev]|] eqn:E; [|discriminate].
  injection H as <-. exists ev. split; [reflexivity|].
  destruct (walk_hives_h_below _ _ _ _ _ _ E) as (Hb & Hp & Hf).
  split; [exact Hb|]. destruct Hf as [->|Hf]; [simpl; lia|].
  specialize (Hp 0). cbn [length] in Hp. lia.
Qed.

End HandleProperties.

(** ** The entry point *)

Section MainProperties.

Context {R : Registry}.

Lemma unwritten_le_1 (l : list SetValueCall) : (0 <= unwritten l <= 1)%Z.
Proof.
  destruct l as [|c l]; cbn; [lia|]. destruct (Z.eqb _ _); lia.
Qed.

Lemma hive_root_open (st : store) (root : HKEY) :
  exists e hk,
    RegOpenKeyEx st root (L "") 0%Z open_flags = (e, hk) /\
    RegKey_new st root (L "") 0%Z
    = Some (mkRegKey 0%Z e (Z.eqb e ERROR_SUCCESS) hk (L "")
              (if Z.eqb e ERROR_SUCCESS then Some (getInfo st hk)
               else None)).
Proof.
  destruct (RegOpenKeyEx st root (L "") 0%Z open_flags) as [e hk] eqn:Ho.
  exists e, hk. split; [reflexivity|].
  apply RegKey_new_open; [unfold NAME_BUFFER; simpl; lia|exact Ho].
Qed.

Lemma walk_hives_summary (fuel : nat) (roots : list HKEY) :
  forall count w status count' w',
  walk_hives fuel roots count w = Some (status, count', w') ->
  (exists calls,
     writes w' = calls ++ writes w /\
     (count' - count = attempted calls)%Z /\
     (written calls <= attempted calls
      <= written calls + Z.of_nat (length roots))%Z) /\
  (status = 0%Z \/
   status = (-1)%Z /\
   exists root,
     In root roots /\
     fst (RegOpenKeyEx (registry w') root (L "") 0%Z open_flags)
     <> ERROR_SUCCESS).
Proof.
  induction roots as [|root roots IH]; intros count w status count' w' H.
  - injection H as <- <- <-. split; [|now left].
    exists []. cbn. repeat split; lia.
  - cbn [walk_hives] in H.
    destruct (hive_root_open (registry w) root) as (e & hk & Ho & Hnew).
    rewrite Hnew in H. unfold isValid in H. cbn [isValidb] in H.
    destruct (Z.eqb e ERROR_SUCCESS) eqn:Ee; cbn [negb] in H.
    + destruct (iter fuel _ count w) as [[[b c1] w1]|] eqn:E; [|discriminate].
      apply iter_accounted in E. destruct E as (l1 & Hw1 & Hc1 & Ha1 & _).
      destruct (IH _ _ _ _ _ H) as ((l2 & Hw2 & Hc2 & Ha2) & Hs).
      pose proof (unwritten_le_1 l1). split.
      * exists (l2 ++ l1). rewrite Hw2, Hw1, app_assoc.
        rewrite attempted_app, written_app. cbn [length].
        repeat split; lia.
      * destruct Hs as [Hs|(Hs & r & Hin & Hf)]; [now left|].
        right. split; [exact Hs|]. exists r. split; [now right|exact Hf].
    + injection H as <- <- <-. split.
      * exists []. cbn. repeat split; lia.
      * right. split; [reflexivity|]. exists root.
        split; [now left|]. rewrite Ho. cbn [fst]. now apply Z.eqb_neq.
Qed.

(** X14.  The exit status of [main] is 0 or -1, and -1 only because a
    root failed to open: [main] then returns in the registry in which that
    open failed, and when every root opens there, the status is 0 whatever
    the walks returned, a walk that aborted included.  When the first root
    fails to open, [main] returns -1 with the counter at 0 and the
    registry untouched. *)
Theorem main_exit_status (st : store)
  (HKEY_CLASSES_ROOT HKEY_CURRENT_USER HKEY_LOCAL_MACHINE HKEY_USERS
     HKEY_CURRENT_CONFIG : HKEY) :
  (forall fuel status count w',
     main fuel st HKEY_CLASSES_ROOT HKEY_CURRENT_USER HKEY_LOCAL_MACHINE
       HKEY_USERS HKEY_CURRENT_CONFIG = Some (status, count, w') ->
     (status = 0%Z \/ status = (-1)%Z) /\
     (status = (-1)%Z ->
      exists root,
        In root [HKEY_CLASSES_ROOT; HKEY_CURRENT_USER; HKEY_LOCAL_MACHINE;
                 HKEY_USERS; HKEY_CURRENT_CONFIG] /\
        fst (RegOpenKeyEx (registry w') root (L "") 0%Z open_flags)
        <> ERROR_SUCCESS) /\
     ((forall root,
         In root [HKEY_CLASSES_ROOT; HKEY_CURRENT_USER; HKEY_LOCAL_MACHINE;
                  HKEY_USERS; HKEY_CURRENT_CONFIG] ->
         fst (RegOpenKeyEx (registry w') root (L "") 0%Z open_flags)
         = ERROR_SUCCESS) ->
      status = 0%Z))
  /\ (forall fuel,
        fst (RegOpenKeyEx st HKEY_CLASSES_ROOT (L "") 0%Z open_flags)
        <> ERROR_SUCCESS ->
        main fuel st HKEY_CLASSES_ROOT HKEY_CURRENT_USER HKEY_LOCAL_MACHINE
          HKEY_USERS HKEY_CURRENT_CONFIG
        = Some ((-1)%Z, 0%Z, mkWorld st [])).
Proof.
  split.
  - intros fuel status count w' H. unfold main in H.
    destruct (walk_hives_summary _ _ _ _ _ _ _ H) as [_ Hs].
    split; [|split].
    + destruct Hs as [Hs|[Hs _]]; auto.
    + intros Hm. destruct Hs as [Hs|[_ Hs]]; [lia|exact Hs].
    + intros Hopen. destruct Hs as [Hs|(_ & r & Hin & Hf)]; [exact Hs|].
      exfalso. exact (Hf (Hopen r Hin)).
  - intros fuel Hf. unfold main. cbn [walk_hives registry].
    destruct (hive_root_open st HKEY_CLASSES_ROOT) as (e & hk & Ho & Hnew).
    rewrite Hnew. rewrite Ho in Hf. cbn [fst] in Hf.
    apply Z.eqb_neq in Hf. unfold isValid. cbn [isValidb].
    now rewrite Hf.
Qed.

(** X15.  The number [main] arrives at is the number of calls of
    [RegSetValueEx] made over all hives; it exceeds the number of values
    written by at most five, one failed write for each hive. *)
Theorem main_reported_count (fuel : nat) (st : store)
  (HKEY_CLASSES_ROOT HKEY_CURRENT_USER HKEY_LOCAL_MACHINE HKEY_USERS
     HKEY_CURRENT_CONFIG : HKEY) (status count : Z) (w' : World) :
  main fuel st HKEY_CLASSES_ROOT HKEY_CURRENT_USER HKEY_LOCAL_MACHINE
    HKEY_USERS HKEY_CURRENT_CONFIG = Some (status, count, w') ->
  count = attempted (writes w') /\
  (written (writes w') <= count <= written (writes w') + 5)%Z.
Proof.
  unfold main. intros H.
  destruct (walk_hives_summary _ _ _ _ _ _ _ H) as [(l & Hw & Hc & Ha) _].
  cbn [writes] in Hw. rewrite app_nil_r in Hw. subst l.
  cbn [length] in Ha. split; lia.
Qed.

End MainProperties.

(** ** The further properties on tree hives *)

Lemma iter_value_rewrites_iff_match_witness :
  exists root w',
    RegKey_new hive_long [] (L "") 0%Z = Some root /\
    iter_value root 0%Z 0%Z (fresh hive_long) = Some (true, 1%Z, w') /\
    value_at (registry w') [] (L "p")
    = Some (Value_SZ (L "C:\Users\to\data")).
Proof.
  pose (root := @mkRegKey tree_registry 0%Z ERROR_SUCCESS true [] (L "")
                  (Some (query hive_long))).
  pose proof (proj2 (iter_value_rewrites_iff_match root (query hive_long)
                       0%Z 0%Z (fresh hive_long) (L "p")
                       (L "C:\Users\from\data" ++ [0%Z])
                       eq_refl eq_refl eq_refl)) as H.
  cbv zeta in H.
  destruct (H ltac:(discriminate) ltac:(reflexivity)) as (E & _).
  exists root. eexists. split; [reflexivity|]. split; [exact E|reflexivity].
Defined.

Lemma iter_writes_clean_witness :
  exists root w' calls,
    RegKey_new hive_A [] (L "") 0%Z = Some root /\
    iter 2 root 0%Z (fresh hive_A) = Some (true, 1%Z, w') /\
    writes w' = calls ++ writes (fresh hive_A) /\
    Forall (fun c => occurrences (sv_data c) FROM_NAME = 0) calls.
Proof.
  assert (E : exists root w',
             RegKey_new hive_A [] (L "") 0%Z = Some root /\
             iter 2 root 0%Z (fresh hive_A) = Some (true, 1%Z, w'))
    by (do 2 eexists; split; reflexivity).
  destruct E as (root & w' & Hroot & E).
  destruct (iter_writes_clean 2 root 0%Z (fresh hive_A) true 1%Z w' E)
    as (calls & H).
  exists root, w', calls. split; [exact Hroot|]. split; [exact E|exact H].
Defined.

Lemma iter_unchanged_without_match_witness :
  exists root w',
    RegKey_new hive_short [] (L "") 0%Z = Some root /\
    iter 1 root 0%Z (fresh hive_short) = Some (true, 0%Z, w') /\
    w' = fresh hive_short.
Proof.
  assert (E : exists root w',
             RegKey_new hive_short [] (L "") 0%Z = Some root /\
             iter 1 root 0%Z (fresh hive_short) = Some (true, 0%Z, w'))
    by (do 2 eexists; split; reflexivity).
  destruct E as (root & w' & Hroot & E).
  exists root, w'. split; [exact Hroot|]. split; [exact E|].
  exact (iter_unchanged_without_match 1 root 0%Z (fresh hive_short) true w'
           E).
Defined.

(** Handles opened before another program emptied the key. *)
Lemma iter_enumeration_failure_witness :
  (exists stale,
     RegKey_new hive_A [] (L "") 0%Z = Some stale /\
     iter 2 stale 0%Z (fresh hive_short)
     = Some (false, 0%Z, fresh hive_short))
  /\ (exists stale,
        RegKey_new hive_short [] (L "") 0%Z = Some stale /\
        iter 1 stale 0%Z (fresh hive_empty)
        = Some (false, 0%Z, fresh hive_empty)).
Proof.
  split.
  - eexists. split; [reflexivity|].
    apply (proj1 iter_enumeration_failure 1 _ (query hive_A) 0%Z
             (fresh hive_short) 0 0%Z (fresh hive_short));
      try reflexivity; [vm_compute; lia|code_differs].
  - eexists. split; [reflexivity|].
    apply (proj2 iter_enumeration_failure 0 _ (query hive_short) 0%Z
             (fresh hive_empty) 0%Z (fresh hive_empty) 0 0%Z
             (fresh hive_empty));
      try reflexivity; [vm_compute; lia|code_differs].
Defined.

Lemma iter_subkey_not_found_witness :
  exists root,
    RegKey_new hive_ghost [] (L "") 0%Z = Some root /\
    iter_subkey (iter 1) root 0%Z 0%Z (fresh hive_ghost)
    = Some (true, 0%Z, fresh hive_ghost) /\
    for_loop 2 0%Z (iter_subkey (iter 1) root) 0%Z (fresh hive_ghost)
    = for_loop 1 (0 + 1)%Z (iter_subkey (iter 1) root) 0%Z
        (fresh hive_ghost).
Proof.
  eexists. split; [reflexivity|].
  apply (iter_subkey_not_found (iter 1) _ 0%Z 0%Z (fresh hive_ghost) (L "G")
           [L "G"] 1);
    [reflexivity|unfold NAME_BUFFER; simpl; lia|reflexivity].
Defined.

Lemma iter_closes_handles_witness :
  exists root res ev,
    RegKey_new hive_deep [] (L "") 0%Z = Some root /\
    iter 3 root 0%Z (fresh hive_deep) = Some res /\
    iter_h 3 root 0%Z (fresh hive_deep) = Some (res, ev) /\ balanced ev.
Proof.
  assert (E : exists root res,
             RegKey_new hive_deep [] (L "") 0%Z = Some root /\
             iter 3 root 0%Z (fresh hive_deep) = Some res)
    by (do 2 eexists; split; reflexivity).
  destruct E as (root & res & Hroot & E).
  destruct (iter_closes_handles 3 root 0%Z (fresh hive_deep) res E)
    as (ev & H).
  exists root, res, ev. split; [exact Hroot|]. split; [exact E|exact H].
Defined.

Lemma iter_open_handles_bound_witness :
  exists root res ev,
    RegKey_new hive_denied [] (L "") 0%Z = Some root /\
    iter 2 root 0%Z (fresh hive_denied) = Some res /\
    iter_h 2 root 0%Z (fresh hive_denied) = Some (res, ev) /\
    peak 0 ev < 2.
Proof.
  assert (E : exists root res,
             RegKey_new hive_denied [] (L "") 0%Z = Some root /\
             iter 2 root 0%Z (fresh hive_denied) = Some res)
    by (do 2 eexists; split; reflexivity).
  destruct E as (root & res & Hroot & E).
  destruct (iter_open_handles_bound 2 root 0%Z (fresh hive_denied) res E)
    as (ev & H).
  exists root, res, ev. split; [exact Hroot|]. split; [exact E|exact H].
Defined.

Lemma main_closes_handles_witness :
  exists res ev,
    main 2 hive_A [] [] [] [] [] = Some res /\
    walk_hives_h 2 [[]; []; []; []; []] 0%Z (fresh hive_A) = Some (res, ev)
    /\ balanced ev /\ peak 0 ev <= 2 + 4.
Proof.
  assert (E : exists res, main 2 hive_A [] [] [] [] [] = Some res)
    by (eexists; reflexivity).
  destruct E as (res & E).
  destruct (@main_closes_handles tree_registry 2 hive_A [] [] [] [] [] res E) as (ev & H).
  exists res, ev. split; [exact E|exact H].
Defined.

(** Every root opens and every walk aborts on a failed write: [main]
    returns 0.  The first root refuses to open: [main] returns -1. *)
Lemma main_exit_status_witness :
  (exists status count w',
     main 2 hive_A_readonly [] [] [] [] [] = Some (status, count, w') /\
     count = 5%Z /\ written (writes w') = 0%Z /\ status = 0%Z)
  /\ main 2 hive_locked [] [] [] [] []
     = Some ((-1)%Z, 0%Z, fresh hive_locked).
Proof.
  split.
  - destruct (@main tree_registry 2 hive_A_readonly [] [] [] [] [])
      as [[[status count] w']|] eqn:E;
      [|vm_compute in E; discriminate E].
    exists status, count, w'. split; [reflexivity|].
    pose proof E as E'. vm_compute in E'. injection E' as Hs Hc Hw.
    split; [now rewrite <- Hc|]. split; [now rewrite <- Hw|].
    apply (proj1 (@main_exit_status tree_registry hive_A_readonly [] [] []
                    [] []) 2 status count w' E).
    intros root Hin. rewrite <- Hw.
    repeat (destruct Hin as [<-|Hin]; [reflexivity|]). destruct Hin.
  - apply (proj2 (@main_exit_status tree_registry hive_locked [] [] [] []
                    []) 2).
    code_differs.
Defined.

Lemma main_reported_count_witness :
  exists status count w',
    main 2 hive_A_readonly [] [] [] [] [] = Some (status, count, w') /\
    count = 5%Z /\
    count = attempted (writes w') /\
    (written (writes w') <= count <= written (writes w') + 5)%Z.
Proof.
  destruct (@main tree_registry 2 hive_A_readonly [] [] [] [] [])
    as [[[status count] w']|] eqn:E;
    [|vm_compute in E; discriminate E].
  exists status, count, w'. split; [reflexivity|].
  pose proof E as E'. vm_compute in E'. injection E' as Hs Hc Hw.
  split; [now rewrite <- Hc|].
  exact (@main_reported_count tree_registry 2 hive_A_readonly [] [] [] [] []
           status count w' E).
Defined.
